(** * Handy: context bridge, style resolution and cloud-provider settings

    A shallow embedding of the TypeScript/JavaScript front-end code:

    - [ContextMappingsList] (resolver [getStyleForApp], [isCustomMapping],
      [handleResetMapping]),
    - [CloudSTTSettings] and [ApiKeyInput] (API-key and model handlers,
      connection test),
    - [ContextPromptEditor] (dirty flag, [handleSave]),
    - the browser extension's background script ([connect], the socket
      callbacks, [sendCurrentContext]).

    JavaScript strings are modelled by [string]; a character stands for one
    UTF-16 code unit below 256.  JavaScript objects used as dictionaries
    ([api_keys], [selected_models]) are finite maps keyed by strings; a
    lookup models an own property, so provider ids are assumed not to name
    members of [Object.prototype].  The table of [detectApp] is read with
    any host name, and is modelled with the members it inherits.  Arrays
    searched with [find] are lists. *)

From Stdlib Require Import ZArith Ascii.
From stdpp Require Import gmap strings list fin_maps.

(** ** JavaScript primitives used by the components *)

Module JS.

(** [a === b] on strings. *)
Definition str_eq (a b : string) : bool := String.eqb a b.

(** Truthiness of a string: only the empty string is falsy. *)
Definition truthy (s : string) : bool :=
  match s with
  | EmptyString => false
  | String _ _ => true
  end.

(** Truthiness of a possibly [undefined] string. *)
Definition truthy_opt (o : option string) : bool :=
  match o with
  | Some s => truthy s
  | None => false
  end.

(** [o || d] where [o] is a string or [undefined] and [d] a string. *)
Definition or_else (o : option string) (d : string) : string :=
  match o with
  | Some s => if truthy s then s else d
  | None => d
  end.

(** [s || null] *)
Definition or_null (s : string) : option string :=
  if truthy s then Some s else None.

(** White space and line terminators of ECMAScript, restricted to the
    code units below 256: TAB, LF, VT, FF, CR, SP and NBSP. *)
Definition is_space (c : ascii) : bool :=
  let n := nat_of_ascii c in
  (n =? 9)%nat || (n =? 10)%nat || (n =? 11)%nat || (n =? 12)%nat
  || (n =? 13)%nat || (n =? 32)%nat || (n =? 160)%nat.

Fixpoint trimStart (s : string) : string :=
  match s with
  | EmptyString => EmptyString
  | String c s' => if is_space c then trimStart s' else s
  end.

Definition trimEnd (s : string) : string :=
  String.rev (trimStart (String.rev s)).

(** [String.prototype.trim] *)
Definition trim (s : string) : string := trimEnd (trimStart s).

(** Outcome of awaiting a command of the host: the promise resolves with
    a tagged result ([status: "ok"] with data, or [status: "error"]), or
    it rejects and control passes to the [catch] block. *)
Inductive outcome (A : Type) : Type :=
| Ok (data : A)
| Error (msg : string)
| Rejected.
Arguments Ok {A} data.
Arguments Error {A} msg.
Arguments Rejected {A}.

(** What may go wrong with one call to the host. *)
Inductive fault : Type :=
| NoFault
| ErrorPayload (msg : string)
| Throws.

End JS.

(** ** Data model (the types of the generated bindings) *)

Record ContextMapping : Type := mkContextMapping {
  app_id : string;
  context_style : string
}.

Record ContextStylePrompt : Type := mkContextStylePrompt {
  id : string;
  name : string;
  description : string;
  prompt : string;
  is_builtin : bool
}.

Record CloudSTTConfig : Type := mkCloudSTTConfig {
  enabled : bool;
  active_provider : option string;
  api_keys : gmap string string;
  selected_models : gmap string string
}.

#[global] Instance ContextMapping_eq_dec : EqDecision ContextMapping.
Proof. solve_decision. Defined.

#[global] Instance ContextStylePrompt_eq_dec : EqDecision ContextStylePrompt.
Proof. solve_decision. Defined.

(** The ids present in a list of style prompts (the Style Store as the
    front end has loaded it). *)
Definition style_ids (ps : list ContextStylePrompt) : list string :=
  id <$> ps.

(** A dropdown entry for a style: [{ value: p.id, label: p.name }]. *)
Definition dropdownOption (p : ContextStylePrompt) : string * string :=
  (id p, name p).

(** ** The host side of the command surface *)

Module Host.

Record t : Type := mk {
  mappings : list ContextMapping;
  prompts : list ContextStylePrompt;
  cloud : CloudSTTConfig
}.

(** Modelled from the spec: the host's [updateContextMapping] command is
    not part of the front-end sources.  The mapping table has at most one
    entry per app id; an update replaces the entry in place or creates
    it. *)
Fixpoint upsert (a style : string) (l : list ContextMapping)
  : list ContextMapping :=
  match l with
  | [] => [mkContextMapping a style]
  | m :: l' =>
      if JS.str_eq (app_id m) a
      then mkContextMapping a style :: l'
      else m :: upsert a style l'
  end.

Definition updateContextMapping (a style : string) (h : t) : t :=
  mk (upsert a style (mappings h)) (prompts h) (cloud h).

(** Modelled from the spec: the host's [deleteContextMapping] command is
    not part of the front-end sources.  Deleting removes the mapping of
    the app id and nothing else. *)
Definition deleteContextMapping (a : string) (h : t) : t :=
  mk (List.filter (fun m => negb (JS.str_eq (app_id m) a)) (mappings h))
     (prompts h) (cloud h).

(** Modelled from the spec: the host's [updateContextStylePrompt] command
    is not part of the front-end sources.  Any subset of name,
    description and prompt is updated; a null means leave unchanged. *)
Definition patch (n d p : option string) (sp : ContextStylePrompt)
  : ContextStylePrompt :=
  mkContextStylePrompt (id sp)
    (default (name sp) n) (default (description sp) d)
    (default (prompt sp) p) (is_builtin sp).

Definition updateContextStylePrompt (i : string) (n d p : option string)
    (h : t) : t :=
  mk (mappings h)
     (List.map (fun sp => if JS.str_eq (id sp) i then patch n d p sp else sp)
               (prompts h))
     (cloud h).

(** Modelled from the spec: the host's [setCloudSttApiKey] command is not
    part of the front-end sources.  The key of one provider is set in the
    persisted configuration, keyed by the provider id. *)
Definition setCloudSttApiKey (p k : string) (h : t) : t :=
  mk (mappings h) (prompts h)
     (mkCloudSTTConfig (enabled (cloud h)) (active_provider (cloud h))
        (<[p := k]> (api_keys (cloud h))) (selected_models (cloud h))).

(** Modelled from the spec: the host's [setCloudSttModel] command is not
    part of the front-end sources.  The model of one provider is set in
    the persisted configuration, keyed by the provider id. *)
Definition setCloudSttModel (p m : string) (h : t) : t :=
  mk (mappings h) (prompts h)
     (mkCloudSTTConfig (enabled (cloud h)) (active_provider (cloud h))
        (api_keys (cloud h)) (<[p := m]> (selected_models (cloud h)))).

(** Modelled from the spec: the host's [setCloudSttProvider] command is
    not part of the front-end sources.  It sets the active provider. *)
Definition setCloudSttProvider (p : string) (h : t) : t :=
  mk (mappings h) (prompts h)
     (mkCloudSTTConfig (enabled (cloud h)) (Some p)
        (api_keys (cloud h)) (selected_models (cloud h))).

(** Modelled from the spec: the host's [testCloudSttConnection] command is
    not part of the front-end sources.  It is a network round trip for a
    provider and a key, answering with a boolean, and it does not touch
    the stored configuration.  The network is the function [net]. *)
Definition testCloudSttConnection
    (net : string → string → JS.outcome bool) (p k : string) (h : t)
  : t * JS.outcome bool :=
  (h, net p k).

(** A mutating command under a fault: a failed call leaves the host state
    as it was and reports the failure. *)
Definition call (f : JS.fault) (op : t → t) (h : t) : t * JS.outcome unit :=
  match f with
  | JS.NoFault => (op h, JS.Ok tt)
  | JS.ErrorPayload e => (h, JS.Error e)
  | JS.Throws => (h, JS.Rejected)
  end.

(** A reading command under a fault. *)
Definition query {A : Type} (f : JS.fault) (get : t → A) (h : t)
  : JS.outcome A :=
  match f with
  | JS.NoFault => JS.Ok (get h)
  | JS.ErrorPayload e => JS.Error e
  | JS.Throws => JS.Rejected
  end.

End Host.


(** ** ContextMappingsList: the resolver and the mapping handlers *)

Module ContextMappingsList.

Record DefaultApp : Type := mkDefaultApp {
  id : string;
  name : string;
  defaultStyle : string
}.

Definition DEFAULT_APPS : list DefaultApp := [
  mkDefaultApp "gmail" "Gmail" "email_pro";
  mkDefaultApp "outlook" "Outlook" "email_pro";
  mkDefaultApp "outlook_web" "Outlook Web" "email_pro";
  mkDefaultApp "apple_mail" "Apple Mail" "email_pro";
  mkDefaultApp "slack" "Slack" "chat";
  mkDefaultApp "slack_web" "Slack Web" "chat";
  mkDefaultApp "discord" "Discord" "chat";
  mkDefaultApp "discord_web" "Discord Web" "chat";
  mkDefaultApp "whatsapp" "WhatsApp" "chat";
  mkDefaultApp "whatsapp_web" "WhatsApp Web" "chat";
  mkDefaultApp "telegram" "Telegram" "chat";
  mkDefaultApp "telegram_web" "Telegram Web" "chat";
  mkDefaultApp "imessage" "iMessage" "chat";
  mkDefaultApp "vscode" "VS Code" "code";
  mkDefaultApp "cursor" "Cursor" "code";
  mkDefaultApp "notion" "Notion" "notes";
  mkDefaultApp "notion_web" "Notion Web" "notes";
  mkDefaultApp "obsidian" "Obsidian" "notes";
  mkDefaultApp "chatgpt" "ChatGPT" "ai_assistant";
  mkDefaultApp "claude" "Claude" "ai_assistant";
  mkDefaultApp "linkedin" "LinkedIn" "social_pro";
  mkDefaultApp "twitter" "Twitter/X" "social_casual";
  mkDefaultApp "github" "GitHub" "dev_tools";
  mkDefaultApp "linear" "Linear" "dev_tools";
  mkDefaultApp "linear_web" "Linear Web" "dev_tools"
].

(** The component's state: the three [useState] cells. *)
Record state : Type := mkState {
  mappings : list ContextMapping;
  prompts : list ContextStylePrompt;
  isLoading : bool
}.

Definition initial : state := mkState [] [] true.

(** [DEFAULT_APPS.find((a) => a.id === appId)] *)
Definition findDefaultApp (appId : string) : option DefaultApp :=
  List.find (fun a => JS.str_eq (id a) appId) DEFAULT_APPS.

(** [mappings.find((m) => m.app_id === appId)] *)
Definition findMapping (ms : list ContextMapping) (appId : string)
  : option ContextMapping :=
  List.find (fun m => JS.str_eq (app_id m) appId) ms.

(** [getStyleForApp], as a function of the loaded mapping table. *)
Definition getStyleForApp (ms : list ContextMapping) (appId : string)
  : string :=
  match findMapping ms appId with
  | Some mapping => context_style mapping
  | None =>
      JS.or_else (defaultStyle <$> findDefaultApp appId) "correction"
  end.

(** [isCustomMapping]: [defaultApp?.defaultStyle !== currentStyle], where
    the left operand is [undefined] for an app outside [DEFAULT_APPS]. *)
Definition isCustomMapping (ms : list ContextMapping) (appId : string)
  : bool :=
  let currentStyle := getStyleForApp ms appId in
  match defaultStyle <$> findDefaultApp appId with
  | Some d => negb (JS.str_eq d currentStyle)
  | None => true
  end.

(** [loadData]: both commands are awaited together; a rejection of either
    skips both state updates; [isLoading] is cleared in every case. *)
Definition loadData (fm fp : JS.fault) (h : Host.t) (st : state) : state :=
  match Host.query fm Host.mappings h, Host.query fp Host.prompts h with
  | JS.Rejected, _ | _, JS.Rejected =>
      mkState (mappings st) (prompts st) false
  | mr, pr =>
      mkState
        (match mr with JS.Ok d => d | _ => mappings st end)
        (match pr with JS.Ok d => d | _ => prompts st end)
        false
  end.

(** [handleStyleChange] *)
Definition handleStyleChange (fu fm fp : JS.fault) (appId newStyle : string)
    (h : Host.t) (st : state) : Host.t * state :=
  match Host.call fu (Host.updateContextMapping appId newStyle) h with
  | (h', JS.Ok _) => (h', loadData fm fp h' st)
  | (h', _) => (h', st)
  end.

(** [handleResetMapping] *)
Definition handleResetMapping (fd fm fp : JS.fault) (appId : string)
    (h : Host.t) (st : state) : Host.t * state :=
  match Host.call fd (Host.deleteContextMapping appId) h with
  | (h', JS.Ok _) => (h', loadData fm fp h' st)
  | (h', _) => (h', st)
  end.

(** [styleOptions]: the dropdown offers the loaded prompts. *)
Definition styleOptions (st : state) : list (string * string) :=
  List.map dropdownOption (prompts st).

End ContextMappingsList.


(** ** CloudSTTSettings: provider, key and model handlers *)

Module CloudSTTSettings.

Record CloudSTTProvider : Type := mkProvider {
  id : string;
  label : string;
  description : string;
  api_key_url : string;
  default_model : string;
  models : list (string * string)
}.

Record state : Type := mkState {
  providers : list CloudSTTProvider;
  config : option CloudSTTConfig;
  isLoading : bool
}.

Definition with_config (f : CloudSTTConfig → CloudSTTConfig) (st : state)
  : state :=
  mkState (providers st) (f <$> config st) (isLoading st).

(** [handleProviderSelect]: the command's result is awaited but its status
    is not inspected; only a rejection skips the local update. *)
Definition handleProviderSelect (f : JS.fault) (providerId : string)
    (h : Host.t) (st : state) : Host.t * state :=
  match Host.call f (Host.setCloudSttProvider providerId) h with
  | (h', JS.Rejected) => (h', st)
  | (h', _) =>
      (h', with_config (fun prev =>
             mkCloudSTTConfig (enabled prev) (Some providerId)
               (api_keys prev) (selected_models prev)) st)
  end.

(** [handleApiKeyChange]:
    [{ ...prev, api_keys: { ...prev.api_keys, [providerId]: apiKey } }] *)
Definition handleApiKeyChange (f : JS.fault) (providerId apiKey : string)
    (h : Host.t) (st : state) : Host.t * state :=
  match Host.call f (Host.setCloudSttApiKey providerId apiKey) h with
  | (h', JS.Rejected) => (h', st)
  | (h', _) =>
      (h', with_config (fun prev =>
             mkCloudSTTConfig (enabled prev) (active_provider prev)
               (<[providerId := apiKey]> (api_keys prev))
               (selected_models prev)) st)
  end.

(** [handleModelChange] *)
Definition handleModelChange (f : JS.fault) (providerId modelId : string)
    (h : Host.t) (st : state) : Host.t * state :=
  match Host.call f (Host.setCloudSttModel providerId modelId) h with
  | (h', JS.Rejected) => (h', st)
  | (h', _) =>
      (h', with_config (fun prev =>
             mkCloudSTTConfig (enabled prev) (active_provider prev)
               (api_keys prev)
               (<[providerId := modelId]> (selected_models prev))) st)
  end.

(** [handleTestConnection]: the key tested is the one in the component's
    [config]; without a non-empty key no request is made. *)
Definition handleTestConnection (net : string → string → JS.outcome bool)
    (providerId : string) (h : Host.t) (st : state) : Host.t * bool :=
  match config st ≫= (fun c => api_keys c !! providerId) with
  | Some apiKey =>
      if JS.truthy apiKey then
        match Host.testCloudSttConnection net providerId apiKey h with
        | (h', JS.Ok true) => (h', true)
        | (h', _) => (h', false)
        end
      else (h, false)
  | None => (h, false)
  end.

(** [loadData]: the catalog and the configuration are awaited together.
    The catalog is what the host answers to [getCloudSttProviders]. *)
Definition loadData (fp fc : JS.fault) (catalog : list CloudSTTProvider)
    (h : Host.t) (st : state) : state :=
  match Host.query fp (fun _ => catalog) h, Host.query fc Host.cloud h with
  | JS.Rejected, _ | _, JS.Rejected =>
      mkState (providers st) (config st) false
  | pr, cr =>
      mkState
        (match pr with JS.Ok d => d | _ => providers st end)
        (match cr with JS.Ok c => Some c | _ => config st end)
        false
  end.

(** [isConfigured] of a provider card, also the negation of the model
    selector's [disabled]: [!!config.api_keys[provider.id]?.trim()] *)
Definition isConfigured (c : CloudSTTConfig) (providerId : string) : bool :=
  match api_keys c !! providerId with
  | Some k => JS.truthy (JS.trim k)
  | None => false
  end.

(** The model the selector shows for a provider:
    [config.selected_models[id] || provider.default_model], and once more
    [selectedModel || provider.default_model] in [CloudModelSelector]. *)
Definition selectedModel (c : CloudSTTConfig) (p : CloudSTTProvider)
  : string :=
  JS.or_else (selected_models c !! id p) (default_model p).

Definition selectedValue (c : CloudSTTConfig) (p : CloudSTTProvider)
  : string :=
  JS.or_else (Some (selectedModel c p)) (default_model p).

End CloudSTTSettings.

(** ** ApiKeyInput: the key field with its test button *)

Module ApiKeyInput.

Section Component.

(** The world the callbacks act on (the parent's state and the host). *)
Context {W : Type}.

Record props : Type := mkProps {
  value : string;
  onChange : string → W → W;
  (** [onTest] returns a promise of a boolean: [Some b], or [None] when
      the promise rejects. *)
  onTest : W → W * option bool
}.

Record state : Type := mkState {
  localValue : string;
  isLoading : bool;
  testResult : option bool
}.

(** The effect on [value]: the field is reset to the prop. *)
Definition valueEffect (p : props) (st : state) : state :=
  mkState (value p) (isLoading st) None.

(** [handleBlur] *)
Definition handleBlur (p : props) (st : state) (w : W) : W * state :=
  if negb (JS.str_eq (localValue st) (value p))
  then (onChange p (localValue st) w,
        mkState (localValue st) (isLoading st) None)
  else (w, st).

(** [handleTest]: the handler's own state updates, up to its last one.
    The [value] effect that a re-render runs while the handler awaits, or
    after it, is [valueEffect]; it is not part of this function. *)
Definition handleTest (p : props) (st : state) (w : W) : W * state :=
  if negb (JS.truthy (JS.trim (localValue st))) then (w, st)
  else
    let w1 :=
      if negb (JS.str_eq (localValue st) (value p))
      then onChange p (localValue st) w
      else w in
    let '(w2, result) := onTest p w1 in
    (w2, mkState (localValue st) false
               (Some (match result with Some b => b | None => false end))).

End Component.

Arguments props : clear implicits.

End ApiKeyInput.

(** The props [CloudSTTSettings] passes to [ApiKeyInput] for the provider
    [selected].  The callbacks are closures of the render: [onTest] reads
    the [config] of the render that created it. *)
Definition apiKeyInputProps
    (f : JS.fault) (net : string → string → JS.outcome bool)
    (selected : string) (rendered : CloudSTTSettings.state)
  : ApiKeyInput.props (Host.t * CloudSTTSettings.state) :=
  ApiKeyInput.mkProps
    (JS.or_else
       (CloudSTTSettings.config rendered ≫= (fun c => api_keys c !! selected))
       "")
    (fun v '(h, st) => CloudSTTSettings.handleApiKeyChange f selected v h st)
    (fun '(h, st) =>
       let '(h', b) :=
         CloudSTTSettings.handleTestConnection net selected h rendered in
       ((h', st), Some b)).

(** [providers.find((p) => p.id === config.active_provider)] *)
Definition selectedProvider (st : CloudSTTSettings.state)
  : option CloudSTTSettings.CloudSTTProvider :=
  c ← CloudSTTSettings.config st;
  List.find
    (fun p => match active_provider c with
              | Some a => JS.str_eq (CloudSTTSettings.id p) a
              | None => false
              end)
    (CloudSTTSettings.providers st).

(** The key field is rendered only once the data is loaded and a provider
    of the catalog is active. *)
Definition renderApiKeyInput
    (f : JS.fault) (net : string → string → JS.outcome bool)
    (rendered : CloudSTTSettings.state)
  : option (ApiKeyInput.props (Host.t * CloudSTTSettings.state)) :=
  if CloudSTTSettings.isLoading rendered then None
  else
    match CloudSTTSettings.config rendered with
    | None => None
    | Some _ =>
        (fun sp => apiKeyInputProps f net (CloudSTTSettings.id sp) rendered)
          <$> selectedProvider rendered
    end.

(** A press of the test button as the component lives it: [handleTest],
    and the [value] effect of the re-render that follows when the
    handler's own [onChange] has changed the key the field is given.  The
    effect clears the verdict.  It comes after the handler's last update
    when the test is answered before the key is stored, which is always so
    when no request is made (the rendered [config] has no key for the
    provider, and [handleTestConnection] answers at once); otherwise the
    order is the scheduler's, [answer_first]. *)
Definition testClick
    (f : JS.fault) (net : string → string → JS.outcome bool)
    (selected : string) (rendered : CloudSTTSettings.state)
    (answer_first : bool) (st : ApiKeyInput.state) (h : Host.t)
  : (Host.t * CloudSTTSettings.state) * ApiKeyInput.state :=
  let p := apiKeyInputProps f net selected rendered in
  let '(w', st') := ApiKeyInput.handleTest p st (h, rendered) in
  let p' := apiKeyInputProps f net selected (snd w') in
  if JS.str_eq (ApiKeyInput.value p') (ApiKeyInput.value p) then (w', st')
  else
    let no_request :=
      negb (JS.truthy_opt
              (CloudSTTSettings.config rendered
                 ≫= (fun c => api_keys c !! selected))) in
    if no_request || answer_first
    then (w', ApiKeyInput.valueEffect p' st')
    else (w', ApiKeyInput.mkState (ApiKeyInput.value p')
                (ApiKeyInput.isLoading st') (ApiKeyInput.testResult st')).

(** ** ContextPromptEditor: draft, dirty flag and save *)

Module ContextPromptEditor.

Record state : Type := mkState {
  prompts : list ContextStylePrompt;
  selectedPromptId : option string;
  isLoading : bool;
  draftName : string;
  draftDescription : string;
  draftPrompt : string;
  isSaving : bool
}.

(** The commands a handler sends to the host, in order. *)
Inductive command : Type :=
| GetContextStylePrompts
| UpdateContextStylePrompt (i : string) (n d p : option string).

(** [prompts.find((p) => p.id === selectedPromptId)] *)
Definition selectedPrompt (st : state) : option ContextStylePrompt :=
  List.find
    (fun p => match selectedPromptId st with
              | Some i => JS.str_eq (id p) i
              | None => false
              end)
    (prompts st).

(** [isDirty], as a truth value. *)
Definition isDirty (st : state) : bool :=
  match selectedPrompt st with
  | Some sp =>
      negb (JS.str_eq (draftName st) (name sp))
      || negb (JS.str_eq (draftDescription st) (description sp))
      || negb (JS.str_eq (draftPrompt st) (prompt sp))
  | None => false
  end.

(** The effect on [selectedPromptId] and [prompts]: the draft is reloaded
    from the selected prompt, when there is one. *)
Definition draftEffect (st : state) : state :=
  match selectedPrompt st with
  | Some sp =>
      mkState (prompts st) (selectedPromptId st) (isLoading st)
        (name sp) (description sp) (prompt sp) (isSaving st)
  | None => st
  end.

(** [loadPrompts] *)
Definition loadPrompts (f : JS.fault) (h : Host.t) (st : state) : state :=
  match Host.query f Host.prompts h with
  | JS.Ok data =>
      let sel :=
        match JS.truthy_opt (selectedPromptId st), data with
        | false, first :: _ => Some (id first)
        | _, _ => selectedPromptId st
        end in
      draftEffect
        (mkState data sel false
           (draftName st) (draftDescription st) (draftPrompt st)
           (isSaving st))
  | _ =>
      mkState (prompts st) (selectedPromptId st) false
        (draftName st) (draftDescription st) (draftPrompt st) (isSaving st)
  end.

Definition set_isSaving (b : bool) (st : state) : state :=
  mkState (prompts st) (selectedPromptId st) (isLoading st)
    (draftName st) (draftDescription st) (draftPrompt st) b.

(** [handleSave]; the result carries the commands sent to the host. *)
Definition handleSave (fu fl : JS.fault) (h : Host.t) (st : state)
  : Host.t * state * list command :=
  match selectedPromptId st with
  | Some i =>
      if JS.truthy i && isDirty st then
        let n := JS.or_null (JS.trim (draftName st)) in
        let d := JS.or_null (JS.trim (draftDescription st)) in
        let p := JS.or_null (JS.trim (draftPrompt st)) in
        match Host.call fu (Host.updateContextStylePrompt i n d p) h with
        | (h', JS.Ok _) =>
            (h', set_isSaving false (loadPrompts fl h' st),
             [UpdateContextStylePrompt i n d p; GetContextStylePrompts])
        | (h', _) =>
            (h', set_isSaving false st, [UpdateContextStylePrompt i n d p])
        end
      else (h, st, [])
  | None => (h, st, [])
  end.

(** [handleReset].  The host's [resetContextStylePrompt] restores factory
    contents that are not part of the front-end sources; it is the
    parameter [reset]. *)
Definition handleReset (reset : string → Host.t → Host.t)
    (fr fl : JS.fault) (h : Host.t) (st : state) : Host.t * state :=
  match selectedPromptId st with
  | Some i =>
      if JS.truthy i then
        match Host.call fr (reset i) h with
        | (h', JS.Ok _) => (h', set_isSaving false (loadPrompts fl h' st))
        | (h', _) => (h', set_isSaving false st)
        end
      else (h, st)
  | None => (h, st)
  end.

End ContextPromptEditor.

(** ** Onboarding: is the cloud setup complete? *)

Module Onboarding.

(** [Object.values(api_keys).some((key) => key && key.trim() !== "")] *)
Definition hasApiKey (c : CloudSTTConfig) : bool :=
  existsb
    (fun key => JS.truthy key && negb (JS.str_eq (JS.trim key) ""))
    (map_to_list (api_keys c)).*2.

(** [handleCloudConfigChange], as the new value of [cloudConfigured]. *)
Definition handleCloudConfigChange (f : JS.fault) (h : Host.t)
    (cloudConfigured : bool) : bool :=
  match Host.query f Host.cloud h with
  | JS.Ok c => hasApiKey c && JS.truthy_opt (active_provider c)
  | _ => cloudConfigured
  end.

End Onboarding.

(** ** The extension's background script: the bridge client *)

Module BridgeClient.

Definition WS_PORT : Z := 9876.

(** [WebSocket.readyState] *)
Inductive ReadyState : Type := CONNECTING | OPEN | CLOSING | CLOSED.

#[global] Instance ReadyState_eq_dec : EqDecision ReadyState.
Proof. solve_decision. Defined.

(** What the script reads of a [chrome.tabs.Tab]. *)
Record Tab : Type := mkTab {
  tab_url : option string;
  tab_title : option string
}.

(** What [detectApp] answers: the app id listed for the host name, or
    null, or, for a host name that is the name of a member of
    [Object.prototype], that inherited member (a function or an object,
    never a string). *)
Inductive detected : Type :=
| App (a : string)
| Inherited (key : string)
| Null.

#[global] Instance detected_eq_dec : EqDecision detected.
Proof. solve_decision. Defined.

(** The object handed to [sendContext]. *)
Record Context : Type := mkContext {
  browser : string;
  url : string;
  domain : string;
  page_title : string;
  detected_app : detected
}.

#[global] Instance Context_eq_dec : EqDecision Context.
Proof. solve_decision. Defined.

(** The table of [detectApp]. *)
Definition domain_mappings : list (string * string) := [
  ("mail.google.com", "gmail");
  ("outlook.office.com", "outlook_web");
  ("outlook.live.com", "outlook_web");
  ("outlook.office365.com", "outlook_web");
  ("app.slack.com", "slack_web");
  ("discord.com", "discord_web");
  ("web.whatsapp.com", "whatsapp_web");
  ("web.telegram.org", "telegram_web");
  ("chat.openai.com", "chatgpt");
  ("chatgpt.com", "chatgpt");
  ("claude.ai", "claude");
  ("notion.so", "notion_web");
  ("www.notion.so", "notion_web");
  ("www.linkedin.com", "linkedin");
  ("linkedin.com", "linkedin");
  ("twitter.com", "twitter");
  ("x.com", "twitter");
  ("github.com", "github");
  ("www.github.com", "github");
  ("linear.app", "linear_web");
  ("teams.microsoft.com", "teams_web")
].

(** The members every plain object inherits from [Object.prototype]; all
    of them are truthy. *)
Definition prototype_members : list string := [
  "constructor"; "__defineGetter__"; "__defineSetter__"; "hasOwnProperty";
  "__lookupGetter__"; "__lookupSetter__"; "isPrototypeOf";
  "propertyIsEnumerable"; "toString"; "valueOf"; "__proto__";
  "toLocaleString"
].

(** [detectApp]: [mappings[domain] || null].  The table is a plain object:
    a host name that is not one of its own keys is looked up in
    [Object.prototype]. *)
Definition detectApp (d : string) : detected :=
  match List.find (fun kv => JS.str_eq (fst kv) d) domain_mappings with
  | Some kv => if JS.truthy (snd kv) then App (snd kv) else Null
  | None => if bool_decide (d ∈ prototype_members) then Inherited d else Null
  end.

(** The module variables [ws] and [reconnectInterval], together with the
    part of the browser the script acts on: the [WebSocket] objects it has
    created (numbered in creation order) with their [readyState], the
    interval timers that are running (by timer id, with their delay in
    milliseconds; the callback of each is [connect]), the calls of
    [sendCurrentContext] that await [chrome.tabs.query], and the frames
    handed to [send]. *)
Record state : Type := mkState {
  ws : option nat;
  reconnectInterval : option nat;
  sockets : gmap nat ReadyState;
  next_socket : nat;
  timers : gmap nat Z;
  next_timer : nat;
  pending : nat;
  sent : list (nat * Context)
}.

(** Truthiness of [reconnectInterval]: [null] and the number 0 are falsy. *)
Definition timer_truthy (o : option nat) : bool :=
  match o with
  | Some (S _) => true
  | _ => false
  end.

(** [ws && ws.readyState === WebSocket.OPEN] *)
Definition ws_open (st : state) : bool :=
  match ws st with
  | Some s => bool_decide (sockets st !! s = Some OPEN)
  | None => false
  end.

(** [connect] *)
Definition connect (st : state) : state :=
  if ws_open st then st
  else
    mkState (Some (next_socket st)) (reconnectInterval st)
      (<[next_socket st := CONNECTING]> (sockets st)) (S (next_socket st))
      (timers st) (next_timer st) (pending st) (sent st).

(** [sendContext] *)
Definition sendContext (c : Context) (st : state) : state :=
  match ws st with
  | Some s =>
      if bool_decide (sockets st !! s = Some OPEN) then
        mkState (ws st) (reconnectInterval st) (sockets st) (next_socket st)
          (timers st) (next_timer st) (pending st) (sent st ++ [(s, c)])
      else st
  | None => st
  end.

(** [sendCurrentContext], up to its [await]: the query is started. *)
Definition sendCurrentContext (st : state) : state :=
  mkState (ws st) (reconnectInterval st) (sockets st) (next_socket st)
    (timers st) (next_timer st) (S (pending st)) (sent st).

(** [ws.onopen] *)
Definition onopen (st : state) : state :=
  sendCurrentContext
    (if timer_truthy (reconnectInterval st) then
       mkState (ws st) None (sockets st) (next_socket st)
         (match reconnectInterval st with
          | Some t => delete t (timers st)
          | None => timers st
          end)
         (next_timer st) (pending st) (sent st)
     else st).

(** [ws.onclose]; [setInterval] answers with a fresh timer id. *)
Definition onclose (st : state) : state :=
  if negb (timer_truthy (reconnectInterval st)) then
    mkState None (Some (next_timer st)) (sockets st) (next_socket st)
      (<[next_timer st := 5000%Z]> (timers st)) (S (next_timer st))
      (pending st) (sent st)
  else
    mkState None (reconnectInterval st) (sockets st) (next_socket st)
      (timers st) (next_timer st) (pending st) (sent st).

Definition set_readyState (s : nat) (r : ReadyState) (st : state) : state :=
  mkState (ws st) (reconnectInterval st) (<[s := r]> (sockets st))
    (next_socket st) (timers st) (next_timer st) (pending st) (sent st).

(** The state in which the script is loaded, and the state after its last
    statement, the call of [connect]. *)
Definition loaded : state := mkState None None ∅ 0 ∅ 1 0 [].
Definition start : state := connect loaded.

(** The timers that are running when the script's bookkeeping is right:
    the one [reconnectInterval] names, every five seconds, and no other. *)
Definition timer_of (o : option nat) : gmap nat Z :=
  match o with
  | Some t => {[ t := 5000%Z ]}
  | None => ∅
  end.

Definition timer_inv (st : state) : Prop :=
  timers st = timer_of (reconnectInterval st)
  ∧ (∀ t, reconnectInterval st = Some t → 0 < t)
  ∧ 0 < next_timer st.

Section Events.

(** [new URL(u).hostname]; [None] when the constructor throws. *)
Variable hostname : string → option string.

(** [sendCurrentContext], after its [await]: [r] is the array the query
    resolved with, or [None] when it rejected. *)
Definition sendCurrentContext_resume (r : option (list Tab)) (st : state)
  : state :=
  match r with
  | Some (tab :: _) =>
      match tab_url tab with
      | Some u =>
          if JS.truthy u then
            match hostname u with
            | Some h =>
                sendContext
                  (mkContext "chrome" u h (JS.or_else (tab_title tab) "")
                     (detectApp h))
                  st
            | None => st
            end
          else st
      | None => st
      end
  | _ => st
  end.

(** What the browser delivers to the script. *)
Inductive event : Type :=
| SocketOpen (s : nat)
| SocketClose (s : nat)
| SocketError (s : nat)
| Tick (t : nat)
| TabActivated
| TabUpdated (complete active : bool)
| QueryDone (r : option (list Tab))
| SocketClosing (s : nat).

(** One turn of the event loop.  An event the browser cannot deliver in
    the state has no successor: [open] comes to a connecting socket,
    [close] to a socket that is not closed yet, a tick from a running
    timer, a query result to a waiting call.  [SocketClosing] is the start
    of the closing handshake on an open socket (the server closes): the
    browser sets [readyState] to [CLOSING] and calls no handler; the
    [close] event follows later. *)
Definition step (st : state) (e : event) : option state :=
  match e with
  | SocketOpen s =>
      match sockets st !! s with
      | Some CONNECTING => Some (onopen (set_readyState s OPEN st))
      | _ => None
      end
  | SocketClose s =>
      match sockets st !! s with
      | Some CONNECTING | Some OPEN | Some CLOSING =>
          Some (onclose (set_readyState s CLOSED st))
      | _ => None
      end
  | SocketError s =>
      match sockets st !! s with
      | Some _ => Some st
      | None => None
      end
  | Tick t =>
      match timers st !! t with
      | Some _ => Some (connect st)
      | None => None
      end
  | TabActivated => Some (sendCurrentContext st)
  | TabUpdated complete active =>
      Some (if complete && active then sendCurrentContext st else st)
  | QueryDone r =>
      match pending st with
      | S n =>
          Some (sendCurrentContext_resume r
                  (mkState (ws st) (reconnectInterval st) (sockets st)
                     (next_socket st) (timers st) (next_timer st) n
                     (sent st)))
      | O => None
      end
  | SocketClosing s =>
      match sockets st !! s with
      | Some OPEN => Some (set_readyState s CLOSING st)
      | _ => None
      end
  end.

Fixpoint run (es : list event) (st : state) : option state :=
  match es with
  | [] => Some st
  | e :: es' =>
      match step st e with
      | Some st' => run es' st'
      | None => None
      end
  end.

Inductive reachable : state → Prop :=
| reachable_start : reachable start
| reachable_step st e st' :
    reachable st → step st e = Some st' → reachable st'.

(** The states reached when no tick of the timer comes while a socket is
    still connecting, that is when every attempt is settled within the
    five seconds. *)
Inductive paced : state → Prop :=
| paced_start : paced start
| paced_step st e st' :
    paced st → step st e = Some st' →
    (∀ t, e = Tick t → ∀ s, sockets st !! s ≠ Some CONNECTING) →
    paced st'.

(** The completed tab queries among the events. *)
Definition is_query (e : event) : bool :=
  match e with
  | QueryDone _ => true
  | _ => false
  end.

End Events.

(** The sockets with an established connection, in creation order. *)
Definition live (st : state) : list nat :=
  filter (fun s => sockets st !! s = Some OPEN) (seq 0 (next_socket st)).

(** A stand-in for the URL parser that knows one address, for examples. *)
Definition sample_hostname (u : string) : option string :=
  if JS.str_eq u "https://mail.google.com/mail/u/0/"
  then Some "mail.google.com"
  else None.

End BridgeClient.

(** * Properties *)

(** Closed decidable goals are settled by evaluating their decision
    procedure. *)
Ltac by_decide := apply (bool_decide_unpack _); vm_compute; exact I.

(** ** Basic facts about the JavaScript primitives *)

Lemma str_eq_true (a b : string) : JS.str_eq a b = true ↔ a = b.
Proof. unfold JS.str_eq. apply String.eqb_eq. Qed.

Lemma str_eq_false (a b : string) : JS.str_eq a b = false ↔ a ≠ b.
Proof. unfold JS.str_eq. apply String.eqb_neq. Qed.

Lemma str_eq_refl (a : string) : JS.str_eq a a = true.
Proof. by apply str_eq_true. Qed.

Lemma or_else_truthy (s d : string) :
  JS.truthy s = true → JS.or_else (Some s) d = s.
Proof. intros H. unfold JS.or_else. by rewrite H. Qed.

(** ** The resolver *)

Section Resolver.

Import ContextMappingsList.

(** A table without an entry for the app: [find] answers [undefined]. *)
Lemma findMapping_None (ms : list ContextMapping) (appId : string) :
  appId ∉ app_id <$> ms → findMapping ms appId = None.
Proof.
  unfold findMapping. induction ms as [|m ms IH]; intros Hnot; [done|].
  rewrite fmap_cons, not_elem_of_cons in Hnot. destruct Hnot as [Hne Hrest].
  simpl. destruct (JS.str_eq (app_id m) appId) eqn:E.
  - apply str_eq_true in E. congruence.
  - auto.
Qed.

(** With one entry per app at most, [find] answers that entry. *)
Lemma findMapping_unique (ms : list ContextMapping) (m : ContextMapping) :
  NoDup (app_id <$> ms) → m ∈ ms → findMapping ms (app_id m) = Some m.
Proof.
  unfold findMapping. induction ms as [|m0 ms IH]; intros Hnd Hin.
  - by apply elem_of_nil in Hin.
  - rewrite fmap_cons in Hnd. apply NoDup_cons in Hnd as [Hfresh Hnd].
    simpl. apply elem_of_cons in Hin as [->|Hin].
    + by rewrite str_eq_refl.
    + destruct (JS.str_eq (app_id m0) (app_id m)) eqn:E.
      * apply str_eq_true in E. exfalso. apply Hfresh. rewrite E.
        by apply list_elem_of_fmap_2.
      * by apply IH.
Qed.

(** Whatever [find] answers is an entry of the table for the app. *)
Lemma findMapping_Some (ms : list ContextMapping) (appId : string)
    (m : ContextMapping) :
  findMapping ms appId = Some m → m ∈ ms ∧ app_id m = appId.
Proof.
  unfold findMapping. intros H. apply find_some in H as [Hin E].
  split; [by apply list_elem_of_In | by apply str_eq_true].
Qed.

Lemma findDefaultApp_None (appId : string) :
  appId ∉ id <$> DEFAULT_APPS → findDefaultApp appId = None.
Proof.
  unfold findDefaultApp. generalize DEFAULT_APPS.
  induction l as [|a l IH]; intros Hnot; [done|].
  rewrite fmap_cons, not_elem_of_cons in Hnot. destruct Hnot as [Hne Hrest].
  simpl. destruct (JS.str_eq (id a) appId) eqn:E.
  - apply str_eq_true in E. congruence.
  - auto.
Qed.

(** Every factory default names a style: none is the empty string. *)
Lemma default_styles_truthy (appId : string) (a : DefaultApp) :
  findDefaultApp appId = Some a → JS.truthy (defaultStyle a) = true.
Proof.
  unfold findDefaultApp. intros H. apply find_some in H as [Hin _].
  revert a Hin. apply List.Forall_forall. unfold DEFAULT_APPS.
  repeat constructor.
Qed.

(** Without any assumption on the table, the style answered for an app
    that has entries is the style of the first of them. *)
Lemma getStyleForApp_first_mapping (ms : list ContextMapping)
    (appId : string) :
  appId ∈ app_id <$> ms →
  ∃ m, findMapping ms appId = Some m ∧ m ∈ ms ∧ app_id m = appId
       ∧ getStyleForApp ms appId = context_style m.
Proof.
  intros Hin. unfold getStyleForApp.
  destruct (findMapping ms appId) as [m|] eqn:E.
  - exists m. destruct (findMapping_Some ms appId m E) as [? ?]. done.
  - exfalso. apply list_elem_of_fmap in Hin as (m & -> & Hm).
    unfold findMapping in E.
    pose proof (find_none _ _ E m (proj1 (list_elem_of_In _ _) Hm)) as Hno.
    cbn in Hno. by rewrite str_eq_refl in Hno.
Qed.

(** The scenarios of the specification: Gmail resolves to its factory
    default, and to the mapped style once a mapping is stored. *)
Example resolve_gmail_default :
  BridgeClient.detectApp "mail.google.com" = BridgeClient.App "gmail"
  ∧ getStyleForApp [] "gmail" = "email_pro"
  ∧ isCustomMapping [] "gmail" = false.
Proof. repeat split. Qed.

Example resolve_gmail_after_update :
  let h0 := Host.mk [] [] (mkCloudSTTConfig false None ∅ ∅) in
  let after :=
    handleStyleChange JS.NoFault JS.NoFault JS.NoFault "gmail" "chat"
      h0 initial in
  getStyleForApp (mappings (snd after)) "gmail" = "chat"
  ∧ isCustomMapping (mappings (snd after)) "gmail" = true.
Proof. cbv zeta. split; reflexivity. Qed.

(** C1: for an app with a mapping in the loaded table (which holds at most
    one mapping per app), [getStyleForApp] answers the style of that
    mapping, whether or not [DEFAULT_APPS] has a default for the app. *)
Theorem getStyleForApp_mapping_wins
    (ms : list ContextMapping) (appId : string) (m : ContextMapping) :
  NoDup (app_id <$> ms) → m ∈ ms → app_id m = appId →
  getStyleForApp ms appId = context_style m.
Proof.
  intros Hnd Hin <-. unfold getStyleForApp.
  by rewrite (findMapping_unique ms m Hnd Hin).
Qed.

Lemma getStyleForApp_mapping_wins_witness :
  getStyleForApp [mkContextMapping "slack" "notes";
                  mkContextMapping "gmail" "chat"] "gmail" = "chat"
  ∧ (defaultStyle <$> findDefaultApp "gmail") = Some "email_pro".
Proof.
  split; [|reflexivity].
  apply (getStyleForApp_mapping_wins _ "gmail" (mkContextMapping "gmail" "chat")).
  - by_decide.
  - by_decide.
  - reflexivity.
Defined.

(** C2: for an app with no mapping in the loaded table and no entry in
    [DEFAULT_APPS], [getStyleForApp] answers ["correction"]. *)
Theorem getStyleForApp_fallback (ms : list ContextMapping) (appId : string) :
  appId ∉ app_id <$> ms → appId ∉ id <$> DEFAULT_APPS →
  getStyleForApp ms appId = "correction".
Proof.
  intros Hm Hd. unfold getStyleForApp.
  rewrite (findMapping_None ms appId Hm), (findDefaultApp_None appId Hd).
  reflexivity.
Qed.

Lemma getStyleForApp_fallback_witness :
  getStyleForApp [mkContextMapping "gmail" "chat"] "teams_web" = "correction".
Proof.
  apply getStyleForApp_fallback.
  - by_decide.
  - by_decide.
Defined.

(** C3 (as stated, refuted): a mapping that names a style missing from the
    loaded prompts is resolved to that very id, not to ["correction"]. *)
Lemma getStyleForApp_dangling_counterexample :
  let ms := [mkContextMapping "gmail" "retired_style"] in
  let ps := [mkContextStylePrompt "correction" "Correction" "" "Fix." true;
             mkContextStylePrompt "chat" "Chat" "" "Casual." true] in
  findMapping ms "gmail" = Some (mkContextMapping "gmail" "retired_style")
  ∧ ("retired_style" ∉ style_ids ps)
  ∧ getStyleForApp ms "gmail" = "retired_style"
  ∧ getStyleForApp ms "gmail" ≠ "correction".
Proof.
  cbv zeta. split; [reflexivity|]. split; [by_decide|].
  split; [reflexivity|]. vm_compute. discriminate.
Qed.

(** C3 (amended): [getStyleForApp] does not consult the loaded prompts.  For
    an app whose mapping names a style id that is missing from them, it
    answers that id as it is; the answer is ["correction"] only when the
    mapping itself says so. *)
Theorem getStyleForApp_dangling_passthrough
    (st : state) (appId : string) (m : ContextMapping) :
  NoDup (app_id <$> mappings st) → m ∈ mappings st → app_id m = appId →
  context_style m ∉ style_ids (prompts st) →
  getStyleForApp (mappings st) appId = context_style m
  ∧ (getStyleForApp (mappings st) appId = "correction"
     ↔ context_style m = "correction").
Proof.
  intros Hnd Hin <- _. unfold getStyleForApp.
  rewrite (findMapping_unique _ m Hnd Hin). done.
Qed.

Lemma getStyleForApp_dangling_passthrough_witness :
  let st :=
    mkState [mkContextMapping "gmail" "retired_style"]
      [mkContextStylePrompt "correction" "Correction" "" "Fix." true] false in
  getStyleForApp (mappings st) "gmail" = "retired_style"
  ∧ (getStyleForApp (mappings st) "gmail" = "correction"
     ↔ "retired_style" = "correction").
Proof.
  cbv zeta.
  apply (getStyleForApp_dangling_passthrough
           (mkState [mkContextMapping "gmail" "retired_style"]
              [mkContextStylePrompt "correction" "Correction" "" "Fix." true]
              false)
           "gmail" (mkContextMapping "gmail" "retired_style")).
  - by_decide.
  - by_decide.
  - reflexivity.
  - by_decide.
Defined.

(** After the mapping of an app is deleted, [find] answers [undefined]. *)
Lemma findMapping_deleted (appId : string) (h : Host.t) :
  findMapping (Host.mappings (Host.deleteContextMapping appId h)) appId = None.
Proof.
  simpl. destruct (findMapping _ appId) as [m|] eqn:E; [|done].
  apply findMapping_Some in E as [Hin Hid].
  apply list_elem_of_In, filter_In in Hin as [_ Hkeep].
  apply str_eq_true in Hid. by rewrite Hid in Hkeep.
Qed.

(** A reset without faults leaves the component with the host's table
    after the deletion. *)
Lemma handleResetMapping_loaded (appId : string) (h : Host.t) (st : state) :
  mappings
    (snd (handleResetMapping JS.NoFault JS.NoFault JS.NoFault appId h st))
  = Host.mappings (Host.deleteContextMapping appId h).
Proof. reflexivity. Qed.

(** C6 (as stated, refuted): for an app outside [DEFAULT_APPS],
    [isCustomMapping] stays true after its mapping was deleted and the
    table reloaded, and whatever the table holds. *)
Lemma isCustomMapping_counterexample :
  let h := Host.mk [mkContextMapping "teams_web" "chat"] []
             (mkCloudSTTConfig false None ∅ ∅) in
  let st := loadData JS.NoFault JS.NoFault h initial in
  let after :=
    handleResetMapping JS.NoFault JS.NoFault JS.NoFault "teams_web" h st in
  mappings (snd after) = []
  ∧ getStyleForApp (mappings (snd after)) "teams_web" = "correction"
  ∧ isCustomMapping (mappings (snd after)) "teams_web" = true.
Proof. cbv zeta. repeat split. Qed.

(** C6 (amended): for an app listed in [DEFAULT_APPS], [isCustomMapping]
    is true exactly when the resolved style differs from the app's factory
    default, and it is false once [handleResetMapping] has deleted the
    app's mapping and reloaded the table. *)
Theorem isCustomMapping_default_apps (appId : string) (a : DefaultApp) :
  findDefaultApp appId = Some a →
  (∀ ms : list ContextMapping,
     isCustomMapping ms appId = true
     ↔ getStyleForApp ms appId ≠ defaultStyle a)
  ∧ (∀ (h : Host.t) (st : state),
       isCustomMapping
         (mappings
            (snd (handleResetMapping JS.NoFault JS.NoFault JS.NoFault
                    appId h st)))
         appId = false).
Proof.
  intros Ha. split.
  - intros ms. unfold isCustomMapping. rewrite Ha. simpl.
    rewrite negb_true_iff, str_eq_false. split; congruence.
  - intros h st. rewrite handleResetMapping_loaded.
    unfold isCustomMapping, getStyleForApp.
    rewrite (findMapping_deleted appId h), Ha.
    change (defaultStyle <$> Some a) with (Some (defaultStyle a)).
    rewrite (or_else_truthy _ _ (default_styles_truthy appId a Ha)).
    by rewrite str_eq_refl.
Qed.

Lemma isCustomMapping_default_apps_witness :
  (∀ ms : list ContextMapping,
     isCustomMapping ms "gmail" = true
     ↔ getStyleForApp ms "gmail" ≠ "email_pro")
  ∧ (∀ (h : Host.t) (st : state),
       isCustomMapping
         (mappings
            (snd (handleResetMapping JS.NoFault JS.NoFault JS.NoFault
                    "gmail" h st)))
         "gmail" = false).
Proof.
  apply (isCustomMapping_default_apps "gmail"
           (mkDefaultApp "gmail" "Gmail" "email_pro")).
  reflexivity.
Defined.

End Resolver.

(** ** Cloud provider configuration *)

(** The frame of [handleApiKeyChange], on the host and in the component. *)
Lemma handleApiKeyChange_frame (f : JS.fault) (p q k : string)
    (h : Host.t) (st : CloudSTTSettings.state) :
  p ≠ q →
  let after := CloudSTTSettings.handleApiKeyChange f p k h st in
  api_keys (Host.cloud (fst after)) !! q = api_keys (Host.cloud h) !! q
  ∧ selected_models (Host.cloud (fst after)) = selected_models (Host.cloud h)
  ∧ ((fun c => api_keys c !! q) <$> CloudSTTSettings.config (snd after))
    = ((fun c => api_keys c !! q) <$> CloudSTTSettings.config st)
  ∧ (selected_models <$> CloudSTTSettings.config (snd after))
    = (selected_models <$> CloudSTTSettings.config st).
Proof.
  intros Hne. unfold CloudSTTSettings.handleApiKeyChange, Host.call.
  destruct f; cbn; destruct (CloudSTTSettings.config st); cbn;
    rewrite ?lookup_insert_ne by done; done.
Qed.

(** The frame of [handleModelChange], on the host and in the component. *)
Lemma handleModelChange_frame (f : JS.fault) (p q m : string)
    (h : Host.t) (st : CloudSTTSettings.state) :
  p ≠ q →
  let after := CloudSTTSettings.handleModelChange f p m h st in
  selected_models (Host.cloud (fst after)) !! q
  = selected_models (Host.cloud h) !! q
  ∧ api_keys (Host.cloud (fst after)) = api_keys (Host.cloud h)
  ∧ ((fun c => selected_models c !! q) <$> CloudSTTSettings.config (snd after))
    = ((fun c => selected_models c !! q) <$> CloudSTTSettings.config st)
  ∧ (api_keys <$> CloudSTTSettings.config (snd after))
    = (api_keys <$> CloudSTTSettings.config st).
Proof.
  intros Hne. unfold CloudSTTSettings.handleModelChange, Host.call.
  destruct f; cbn; destruct (CloudSTTSettings.config st); cbn;
    rewrite ?lookup_insert_ne by done; done.
Qed.

(** C5: setting the API key, or the selected model, of provider [p] leaves
    the key and the model stored for every other provider [q] as they
    were, in the persisted configuration and in the component's copy. *)
Theorem provider_config_isolation (f : JS.fault) (p q v : string)
    (h : Host.t) (st : CloudSTTSettings.state) :
  p ≠ q →
  let key_set := CloudSTTSettings.handleApiKeyChange f p v h st in
  let model_set := CloudSTTSettings.handleModelChange f p v h st in
  (api_keys (Host.cloud (fst key_set)) !! q = api_keys (Host.cloud h) !! q
   ∧ selected_models (Host.cloud (fst key_set)) !! q
     = selected_models (Host.cloud h) !! q
   ∧ api_keys (Host.cloud (fst model_set)) !! q
     = api_keys (Host.cloud h) !! q
   ∧ selected_models (Host.cloud (fst model_set)) !! q
     = selected_models (Host.cloud h) !! q)
  ∧ (((fun c => (api_keys c !! q, selected_models c !! q))
        <$> CloudSTTSettings.config (snd key_set))
     = ((fun c => (api_keys c !! q, selected_models c !! q))
        <$> CloudSTTSettings.config st)
     ∧ ((fun c => (api_keys c !! q, selected_models c !! q))
        <$> CloudSTTSettings.config (snd model_set))
     = ((fun c => (api_keys c !! q, selected_models c !! q))
        <$> CloudSTTSettings.config st)).
Proof.
  intros Hne key_set model_set.
  destruct (handleApiKeyChange_frame f p q v h st Hne) as (K1 & K2 & _ & _).
  destruct (handleModelChange_frame f p q v h st Hne) as (M1 & M2 & _ & _).
  fold key_set in K1, K2. fold model_set in M1, M2.
  split.
  - by rewrite K1, K2, M1, M2.
  - subst key_set model_set.
    unfold CloudSTTSettings.handleApiKeyChange,
      CloudSTTSettings.handleModelChange, Host.call.
    destruct f; cbn; destruct (CloudSTTSettings.config st); cbn;
      rewrite ?lookup_insert_ne by done; done.
Qed.

(** The scenario of the specification: the key of "gemini" survives the
    setting of the key of "openai". *)
Lemma provider_config_isolation_witness :
  let h0 := Host.mk [] [] (mkCloudSTTConfig true None ∅ ∅) in
  let st0 :=
    CloudSTTSettings.mkState [] (Some (mkCloudSTTConfig true None ∅ ∅))
      false in
  let s1 := CloudSTTSettings.handleApiKeyChange JS.NoFault "gemini" "k1" h0 st0 in
  let s2 :=
    CloudSTTSettings.handleApiKeyChange JS.NoFault "openai" "k2"
      (fst s1) (snd s1) in
  api_keys (Host.cloud (fst s2)) !! "gemini" = Some "k1"
  ∧ api_keys (Host.cloud (fst s2)) !! "openai" = Some "k2".
Proof.
  intros h0 st0 s1 s2. split; [|reflexivity].
  destruct (provider_config_isolation JS.NoFault "openai" "gemini" "k2"
              (fst s1) (snd s1)) as [(K & _) _].
  - discriminate.
  - fold s2 in K. rewrite K. reflexivity.
Defined.

(** ** The connection test *)

(** The test request by itself never writes the host's state. *)
Lemma handleTestConnection_pure (net : string → string → JS.outcome bool)
    (providerId : string) (h : Host.t) (st : CloudSTTSettings.state) :
  fst (CloudSTTSettings.handleTestConnection net providerId h st) = h.
Proof.
  unfold CloudSTTSettings.handleTestConnection, Host.testCloudSttConnection.
  destruct (CloudSTTSettings.config st ≫= _) as [k|]; [|done].
  destruct (JS.truthy k); [|done].
  by destruct (net providerId k) as [[]| |].
Qed.

(** C4 (as stated, refuted): the field shows the stored key "k1", the user
    has typed "k2" and presses the test button.  The test succeeds, and the
    stored configuration now holds "k2" although nothing but the test was
    asked for. *)
Lemma handleTest_persists_key_counterexample :
  let cfg := mkCloudSTTConfig true (Some "gemini") {["gemini" := "k1"]} ∅ in
  let h := Host.mk [] [] cfg in
  let rendered := CloudSTTSettings.mkState [] (Some cfg) false in
  let net := fun _ _ : string => JS.Ok true in
  let p := apiKeyInputProps JS.NoFault net "gemini" rendered in
  let after :=
    ApiKeyInput.handleTest p (ApiKeyInput.mkState "k2" false None)
      (h, rendered) in
  ApiKeyInput.value p = "k1"
  ∧ api_keys (Host.cloud h) !! "gemini" = Some "k1"
  ∧ api_keys (Host.cloud (fst (fst after))) !! "gemini" = Some "k2"
  ∧ Host.cloud (fst (fst after)) ≠ Host.cloud h.
Proof.
  cbv zeta. split; [reflexivity|]. split; [reflexivity|].
  split; [reflexivity|].
  intros E. apply (f_equal (fun c => api_keys c !! "gemini")) in E.
  vm_compute in E. discriminate.
Qed.

(** C4 (amended): the test request itself never writes the stored
    configuration, and pressing the test button leaves it unchanged when
    the field is blank or holds the configured key.  When the field holds a
    non-blank key that differs from the configured one, [handleTest] first
    hands it to [onChange], so the stored configuration is the one that
    [setCloudSttApiKey] produces for the entered key. *)
Theorem handleTest_stored_config
    (f : JS.fault) (net : string → string → JS.outcome bool)
    (selected : string) (rendered : CloudSTTSettings.state)
    (st : ApiKeyInput.state) (h : Host.t) :
  let p := apiKeyInputProps f net selected rendered in
  let entered := ApiKeyInput.localValue st in
  fst (CloudSTTSettings.handleTestConnection net selected h rendered) = h
  ∧ fst (fst (ApiKeyInput.handleTest p st (h, rendered)))
    = if JS.truthy (JS.trim entered)
         && negb (JS.str_eq entered (ApiKeyInput.value p))
      then fst (Host.call f (Host.setCloudSttApiKey selected entered) h)
      else h.
Proof.
  intros p entered. split; [apply handleTestConnection_pure|].
  unfold ApiKeyInput.handleTest. fold entered.
  destruct (JS.truthy (JS.trim entered)); cbn [negb andb]; [|done].
  destruct (negb (JS.str_eq entered (ApiKeyInput.value p))) eqn:E.
  - cbn [ApiKeyInput.onChange ApiKeyInput.onTest p apiKeyInputProps].
    destruct (CloudSTTSettings.handleApiKeyChange f selected entered h
                rendered) as [h1 st1] eqn:Hchg.
    pose proof (handleTestConnection_pure net selected h1 rendered) as Hpure.
    destruct (CloudSTTSettings.handleTestConnection net selected h1 rendered)
      as [h2 b]. cbn in Hpure |- *. subst h2.
    unfold CloudSTTSettings.handleApiKeyChange in Hchg.
    destruct (Host.call f _ h) as [h' [| |]]; by inversion Hchg.
  - cbn [ApiKeyInput.onTest p apiKeyInputProps].
    pose proof (handleTestConnection_pure net selected h rendered) as Hpure.
    destruct (CloudSTTSettings.handleTestConnection net selected h rendered)
      as [h2 b]. cbn in Hpure |- *. by subst h2.
Qed.

(** ** The prompt editor *)

(** The dirty flag, read as a proposition. *)
Lemma isDirty_spec (st : ContextPromptEditor.state) :
  ContextPromptEditor.isDirty st = true
  ↔ ∃ sp, ContextPromptEditor.selectedPrompt st = Some sp
          ∧ (ContextPromptEditor.draftName st ≠ name sp
             ∨ ContextPromptEditor.draftDescription st ≠ description sp
             ∨ ContextPromptEditor.draftPrompt st ≠ prompt sp).
Proof.
  unfold ContextPromptEditor.isDirty.
  destruct (ContextPromptEditor.selectedPrompt st) as [sp|].
  - rewrite !orb_true_iff, !negb_true_iff, !str_eq_false. split.
    + intros H. exists sp. split; [done|]. tauto.
    + intros (sp' & [= <-] & H). tauto.
  - split; [done|]. by intros (sp & ? & _).
Qed.

(** C9 (as stated, refuted): the draft of the selected style has been
    emptied.  It is dirty, and [handleSave] sends the update, with every
    field null, and reloads. *)
Lemma handleSave_empty_draft_counterexample :
  let chat := mkContextStylePrompt "chat" "Chat" "Casual" "Be casual." true in
  let h := Host.mk [] [chat] (mkCloudSTTConfig false None ∅ ∅) in
  let st := ContextPromptEditor.mkState [chat] (Some "chat") false "" "" "" false in
  ContextPromptEditor.isDirty st = true
  ∧ snd (ContextPromptEditor.handleSave JS.NoFault JS.NoFault h st)
    = [ContextPromptEditor.UpdateContextStylePrompt "chat" None None None;
       ContextPromptEditor.GetContextStylePrompts].
Proof. cbv zeta. split; reflexivity. Qed.

(** C9 (amended): the dirty flag is true exactly when a style is selected
    and the draft's name, description or prompt differs from the loaded
    one.  [handleSave] sends an update only for a selected style whose
    draft is dirty, passing each field trimmed, or null when it is blank;
    an update the host accepts is followed by a reload of the whole list,
    and an update that fails is followed by nothing. *)
Theorem handleSave_contract (fu fl : JS.fault) (h : Host.t)
    (st : ContextPromptEditor.state) :
  let result := ContextPromptEditor.handleSave fu fl h st in
  let cmds := snd result in
  let upd i :=
    ContextPromptEditor.UpdateContextStylePrompt i
      (JS.or_null (JS.trim (ContextPromptEditor.draftName st)))
      (JS.or_null (JS.trim (ContextPromptEditor.draftDescription st)))
      (JS.or_null (JS.trim (ContextPromptEditor.draftPrompt st))) in
  (ContextPromptEditor.isDirty st = true
   ↔ ∃ sp, ContextPromptEditor.selectedPrompt st = Some sp
           ∧ (ContextPromptEditor.draftName st ≠ name sp
              ∨ ContextPromptEditor.draftDescription st ≠ description sp
              ∨ ContextPromptEditor.draftPrompt st ≠ prompt sp))
  ∧ (cmds = []
     ∨ ∃ i, ContextPromptEditor.selectedPromptId st = Some i ∧ i ≠ ""
            ∧ ContextPromptEditor.isDirty st = true
            ∧ ((fu = JS.NoFault
                ∧ cmds = [upd i; ContextPromptEditor.GetContextStylePrompts]
                ∧ (fl = JS.NoFault →
                   ContextPromptEditor.prompts (snd (fst result))
                   = Host.prompts (fst (fst result))))
               ∨ (fu ≠ JS.NoFault ∧ cmds = [upd i])))
  ∧ (cmds = [] ↔
     ¬ (∃ i, ContextPromptEditor.selectedPromptId st = Some i ∧ i ≠ ""
             ∧ ContextPromptEditor.isDirty st = true)).
Proof.
  intros result cmds upd. split; [apply isDirty_spec|].
  subst result cmds. unfold ContextPromptEditor.handleSave.
  destruct (ContextPromptEditor.selectedPromptId st) as [i|].
  2:{ split; [by left|]. split; [|done]. by intros _ (i & [=] & _). }
  destruct (JS.truthy i) eqn:Hi; cbn [andb].
  2:{ destruct i; [|discriminate]. split; [by left|].
      split; [|done]. by intros _ (i & [= <-] & ? & _). }
  assert (i ≠ "") as Hne by (intros ->; discriminate).
  destruct (ContextPromptEditor.isDirty st) eqn:Hd.
  2:{ split; [by left|]. split; [|done]. by intros _ (j & _ & _ & ?). }
  split.
  - right. exists i. split; [done|]. split; [done|]. split; [done|].
    destruct fu; cbn.
    + left. split; [done|]. split; [done|]. intros ->. cbn.
      unfold ContextPromptEditor.draftEffect.
      by destruct (ContextPromptEditor.selectedPrompt _).
    + right. done.
    + right. done.
  - destruct fu; cbn; (split; [done|]); intros Hno; exfalso; apply Hno;
      by exists i.
Qed.

Lemma handleSave_contract_witness :
  let chat := mkContextStylePrompt "chat" "Chat" "Casual" "Be casual." true in
  let h := Host.mk [] [chat] (mkCloudSTTConfig false None ∅ ∅) in
  let st :=
    ContextPromptEditor.mkState [chat] (Some "chat") false
      "Chat " "Casual" "Be brief." false in
  let result := ContextPromptEditor.handleSave JS.NoFault JS.NoFault h st in
  snd result
  = [ContextPromptEditor.UpdateContextStylePrompt "chat"
       (Some "Chat") (Some "Casual") (Some "Be brief.");
     ContextPromptEditor.GetContextStylePrompts]
  ∧ ContextPromptEditor.prompts (snd (fst result))
    = Host.prompts (fst (fst result)).
Proof.
  intros chat h st result.
  destruct (handleSave_contract JS.NoFault JS.NoFault h st)
    as (_ & [Hnil | (i & Hsel & _ & _ & [(_ & Hcmds & Hload) | (Hf & _)])] & _).
  - discriminate Hnil.
  - injection Hsel as <-. split; [exact Hcmds | exact (Hload eq_refl)].
  - by destruct Hf.
Defined.

(** ** The bridge client *)

Section Bridge.

Import BridgeClient.

Variable hostname : string → option string.

Lemma timer_truthy_inv (st : state) :
  timer_inv st →
  timer_truthy (reconnectInterval st) = true
  ↔ ∃ t, reconnectInterval st = Some t.
Proof.
  intros (_ & Hpos & _). destruct (reconnectInterval st) as [t|]; cbn.
  - specialize (Hpos t eq_refl). destruct t; [lia|].
    split; [by eexists | done].
  - split; [done | by intros [t [=]]].
Qed.

Lemma timer_inv_start : timer_inv start.
Proof. repeat split; cbn; [|lia]. by intros t [=]. Qed.

Lemma timer_inv_connect (st : state) : timer_inv st → timer_inv (connect st).
Proof. unfold connect. by destruct (ws_open st). Qed.

Lemma timer_inv_set_readyState (s : nat) (r : ReadyState) (st : state) :
  timer_inv st → timer_inv (set_readyState s r st).
Proof. done. Qed.

Lemma timer_inv_onopen (st : state) :
  timer_inv st →
  timer_inv (onopen st)
  ∧ reconnectInterval (onopen st) = None ∧ timers (onopen st) = ∅.
Proof.
  intros Hinv. pose proof (timer_truthy_inv st Hinv) as Htr.
  destruct Hinv as (Ht & Hpos & Hnext). unfold onopen, timer_inv.
  destruct (timer_truthy (reconnectInterval st)) eqn:E; cbn.
  - destruct (proj1 Htr eq_refl) as [t Hri]. rewrite Hri in Ht |- *.
    cbn in Ht. rewrite Ht, delete_singleton_eq.
    repeat split; try done; by intros ? [=].
  - destruct (reconnectInterval st) as [t|] eqn:Hri.
    + destruct Htr as [_ Htr]. by specialize (Htr (ex_intro _ t eq_refl)).
    + cbn in Ht. repeat split; try done; by intros ? [=].
Qed.

Lemma timer_inv_onclose (st : state) :
  timer_inv st →
  timer_inv (onclose st)
  ∧ ws (onclose st) = None
  ∧ (∃ t, reconnectInterval (onclose st) = Some t
          ∧ timers (onclose st) = {[ t := 5000%Z ]})
  ∧ (timers st ≠ ∅ →
     timers (onclose st) = timers st
     ∧ reconnectInterval (onclose st) = reconnectInterval st
     ∧ next_timer (onclose st) = next_timer st).
Proof.
  intros Hinv. pose proof (timer_truthy_inv st Hinv) as Htr.
  destruct Hinv as (Ht & Hpos & Hnext). unfold onclose, timer_inv.
  destruct (timer_truthy (reconnectInterval st)) eqn:E; cbn.
  - destruct (proj1 Htr eq_refl) as [t Hri]. rewrite Hri in Ht |- *.
    cbn in Ht. rewrite Ht. split.
    { split; [done|]. split; [|done]. intros t0 [= <-]. by apply Hpos. }
    split; [done|]. split; [by exists t|]. done.
  - destruct (reconnectInterval st) as [t|] eqn:Hri.
    { destruct Htr as [_ Htr]. by specialize (Htr (ex_intro _ t eq_refl)). }
    cbn in Ht. rewrite Ht, insert_empty. split.
    + split; [done|]. split; [|lia]. intros t [= <-]. lia.
    + split; [done|]. split; [by eexists|]. done.
Qed.

(** The bookkeeping of the reconnect timer is right in every state the
    script can reach. *)
Lemma timer_inv_reachable (st : state) : reachable hostname st → timer_inv st.
Proof.
  induction 1 as [|st e st' _ IH Hstep]; [apply timer_inv_start|].
  destruct e as [s|s|s|t| |complete active|r|s]; cbn in Hstep.
  - destruct (sockets st !! s) as [[]|]; simplify_eq.
    by apply (timer_inv_onopen (set_readyState s OPEN st)).
  - destruct (sockets st !! s) as [[]|]; simplify_eq;
      by apply (timer_inv_onclose (set_readyState s CLOSED st)).
  - destruct (sockets st !! s); by simplify_eq.
  - destruct (timers st !! t); simplify_eq. by apply timer_inv_connect.
  - by simplify_eq.
  - simplify_eq. by destruct (complete && active).
  - destruct (pending st) as [|n] eqn:Hp; simplify_eq.
    unfold sendCurrentContext_resume, sendContext.
    repeat case_match; done.
  - destruct (sockets st !! s) as [[]|]; by simplify_eq.
Qed.

(** Running a list of events from a reachable state ends in one. *)
Lemma reachable_run (es : list event) (st st' : state) :
  reachable hostname st → run hostname es st = Some st' →
  reachable hostname st'.
Proof.
  revert st. induction es as [|e es IH]; intros st Hreach Hrun; cbn in Hrun.
  - by simplify_eq.
  - destruct (step hostname st e) as [st1|] eqn:E; [|done].
    apply (IH st1); [|done]. by apply (reachable_step _ st e).
Qed.

Lemma ws_open_resume (r : option (list Tab)) (st : state) :
  ws_open (sendCurrentContext_resume hostname r st) = ws_open st.
Proof.
  unfold sendCurrentContext_resume, sendContext.
  repeat case_match; try done; unfold ws_open; cbn; by simplify_option_eq.
Qed.

(** While a reconnect timer is set the handle never names an open socket,
    so that every tick of the timer is a new connection attempt. *)
Lemma ws_closed_while_timer (st : state) :
  reachable hostname st →
  is_Some (reconnectInterval st) → ws_open st = false.
Proof.
  induction 1 as [|st e st' Hreach IH Hstep]; [by intros [t [=]]|].
  pose proof (timer_inv_reachable st Hreach) as Hinv.
  destruct e as [s|s|s|t| |complete active|r|s]; cbn in Hstep.
  8:{ destruct (sockets st !! s) as [[]|] eqn:Hs; simplify_eq.
      intros Hri. specialize (IH Hri). unfold ws_open in *. cbn.
      destruct (ws st) as [k|]; [|done].
      destruct (decide (s = k)) as [->|Hne].
      - rewrite lookup_insert_eq. by rewrite bool_decide_eq_false_2.
      - by rewrite lookup_insert_ne. }
  - destruct (sockets st !! s) as [[]|]; simplify_eq.
    destruct (timer_inv_onopen (set_readyState s OPEN st)) as (_ & -> & _);
      [done|]. by intros [t [=]].
  - destruct (sockets st !! s) as [[]|]; simplify_eq; intros _;
      unfold onclose; by destruct (negb _).
  - destruct (sockets st !! s); by simplify_eq.
  - destruct (timers st !! t); simplify_eq. unfold connect.
    destruct (ws_open st) eqn:E;
      [intros Hri; specialize (IH Hri); congruence|]. intros _.
    unfold ws_open. cbn. rewrite lookup_insert_eq.
    by rewrite bool_decide_eq_false_2.
  - by simplify_eq.
  - simplify_eq. by destruct (complete && active).
  - destruct (pending st); simplify_eq. rewrite ws_open_resume.
    intros Hri. apply IH. revert Hri.
    unfold sendCurrentContext_resume, sendContext. repeat case_match; done.
Qed.

Lemma timers_resume (r : option (list Tab)) (st : state) :
  timers (sendCurrentContext_resume hostname r st) = timers st.
Proof.
  unfold sendCurrentContext_resume, sendContext. repeat case_match; done.
Qed.

Lemma size_timer_of (o : option nat) : size (timer_of o) ≤ 1.
Proof.
  destruct o; unfold timer_of;
    [rewrite map_size_singleton | rewrite map_size_empty]; lia.
Qed.

(** [connect] opens a new socket and moves the handle to it whenever the
    handle is null or names a socket that is not open, be it closed or
    still connecting. *)
Lemma connect_attempt (st : state) :
  ws_open st = false →
  ws (connect st) = Some (next_socket st)
  ∧ sockets (connect st) !! next_socket st = Some CONNECTING.
Proof.
  intros H. unfold connect. rewrite H. cbn. by rewrite lookup_insert_eq.
Qed.

(** C7: in every state the script can reach, at most one interval timer is
    running.  A close event leaves the handle null and a timer running that
    calls [connect] every 5000 ms; when a timer was running already, it is
    kept and no second one is created.  Every tick of the timer calls
    [connect], which then opens a new socket; every event other than an
    open keeps the running timer, and an open stops it. *)
Theorem reconnect_timer_discipline (st : state) :
  reachable hostname st →
  size (timers st) ≤ 1
  ∧ (∀ s st', step hostname st (SocketClose s) = Some st' →
       ws st' = None
       ∧ (∃ t, reconnectInterval st' = Some t
               ∧ timers st' = {[ t := 5000%Z ]})
       ∧ (timers st ≠ ∅ →
          timers st' = timers st
          ∧ reconnectInterval st' = reconnectInterval st
          ∧ next_timer st' = next_timer st))
  ∧ (∀ t, is_Some (timers st !! t) →
       step hostname st (Tick t) = Some (connect st)
       ∧ ws (connect st) = Some (next_socket st)
       ∧ sockets (connect st) !! next_socket st = Some CONNECTING)
  ∧ (∀ e st', step hostname st e = Some st' →
       (∀ s, e ≠ SocketOpen s) → timers st ≠ ∅ → timers st' = timers st)
  ∧ (∀ s st', step hostname st (SocketOpen s) = Some st' →
       timers st' = ∅ ∧ reconnectInterval st' = None).
Proof.
  intros Hreach. pose proof (timer_inv_reachable st Hreach) as Hinv.
  assert (∀ s st', step hostname st (SocketClose s) = Some st' →
            st' = onclose (set_readyState s CLOSED st)) as Hclose.
  { intros s st' Hstep. cbn in Hstep.
    destruct (sockets st !! s) as [[]|]; by simplify_eq. }
  split; [|split; [|split; [|split]]].
  - destruct Hinv as (-> & _). apply size_timer_of.
  - intros s st' Hstep. rewrite (Hclose s st' Hstep).
    destruct (timer_inv_onclose (set_readyState s CLOSED st)) as (_ & H); done.
  - intros t [z Hz]. split; [cbn; by rewrite Hz|].
    apply connect_attempt, (ws_closed_while_timer st Hreach).
    destruct Hinv as (Ht & _). rewrite Ht in Hz.
    destruct (reconnectInterval st); [by eexists | done].
  - intros e st' Hstep Hnot Hrun.
    destruct e as [s|s|s|t| |complete active|r|s].
    8:{ cbn in Hstep. destruct (sockets st !! s) as [[]|]; by simplify_eq. }
    + by destruct (Hnot s).
    + rewrite (Hclose s st' Hstep).
      destruct (timer_inv_onclose (set_readyState s CLOSED st))
        as (_ & _ & _ & H); [done|]. by destruct H.
    + cbn in Hstep. destruct (sockets st !! s); by simplify_eq.
    + cbn in Hstep. destruct (timers st !! t); simplify_eq.
      unfold connect. by destruct (ws_open st).
    + cbn in Hstep. by simplify_eq.
    + cbn in Hstep. simplify_eq. by destruct (complete && active).
    + cbn in Hstep. destruct (pending st); simplify_eq.
      by rewrite timers_resume.
  - intros s st' Hstep. cbn in Hstep.
    destruct (sockets st !! s) as [[]|]; simplify_eq.
    destruct (timer_inv_onopen (set_readyState s OPEN st)) as (_ & ? & ?);
      done.
Qed.

(** [connect] does nothing when the handle names an open socket. *)
Lemma connect_noop_when_open (st : state) (s : nat) :
  ws st = Some s → sockets st !! s = Some OPEN → connect st = st.
Proof.
  intros Hws Hopen. unfold connect, ws_open. rewrite Hws.
  by rewrite bool_decide_eq_true_2.
Qed.

(** What the answer of a tab query does, in any state: it sends the full
    context of the tab on the open socket the handle names at that moment,
    when the tab has a URL that is not empty and parses; it sends nothing
    when there is no such tab, and nothing when the handle is null or
    names a socket that is not open. *)
Lemma query_answer (st : state) (r : option (list Tab)) (st' : state) :
  step hostname st (QueryDone r) = Some st' →
  (∀ tab rest u d s',
     r = Some (tab :: rest) → tab_url tab = Some u → u ≠ "" →
     hostname u = Some d → ws st = Some s' → sockets st !! s' = Some OPEN →
     sent st'
     = sent st ++ [(s', mkContext "chrome" u d
                          (JS.or_else (tab_title tab) "") (detectApp d))])
  ∧ ((r = None ∨ r = Some []
      ∨ ∃ tab rest, r = Some (tab :: rest)
                    ∧ (tab_url tab = None ∨ tab_url tab = Some ""
                       ∨ ∃ u, tab_url tab = Some u ∧ hostname u = None)) →
     sent st' = sent st)
  ∧ (ws_open st = false → sent st' = sent st).
Proof.
  intros Hstep. cbn in Hstep. destruct (pending st) as [|n]; simplify_eq.
  split; [|split].
  - intros tab rest u d s' -> Hu Hne Hd Hws Hopen.
    unfold sendCurrentContext_resume. rewrite Hu, Hd.
    destruct u as [|c u]; [done|]. cbn [JS.truthy].
    unfold sendContext. cbn [ws sockets sent]. rewrite Hws, Hopen.
    by rewrite bool_decide_eq_true_2.
  - intros [-> | [-> | (tab & rest & -> & [Hu | [Hu | (u & Hu & Hd)]])]];
      unfold sendCurrentContext_resume; rewrite ?Hu, ?Hd;
      cbn [JS.truthy sent]; try done.
    by destruct (JS.truthy u).
  - intros Hclosed. unfold sendCurrentContext_resume, sendContext.
    unfold ws_open in Hclosed. cbn [ws sockets].
    destruct r as [[|tab rest]|]; [done| |done].
    destruct (tab_url tab) as [u|]; [|done].
    destruct (JS.truthy u); [|done].
    destruct (hostname u); [|done].
    destruct (ws st) as [k|]; [|done]. by rewrite Hclosed.
Qed.

(** C8 (amended): an open event stops the reconnect timer and starts the
    query for the active tab, and sends nothing by itself.  Whenever a tab
    query answers afterwards, at once or after other events, the full
    context of the tab is sent exactly when the answer holds a tab whose
    URL is non-empty and parses and the handle names an open socket at
    that moment, and it is sent on that socket; with no tab, a tab without
    a URL, or a handle that is null or not open by then, nothing is sent.
    When the answer comes right after the open and the socket that opened
    is the one the handle named, the context is sent on it. *)
Theorem onopen_resync (st : state) (s : nat) (st1 : state) :
  reachable hostname st →
  step hostname st (SocketOpen s) = Some st1 →
  reconnectInterval st1 = None ∧ timers st1 = ∅
  ∧ sockets st1 !! s = Some OPEN
  ∧ pending st1 = S (pending st) ∧ sent st1 = sent st
  ∧ (∀ r, ∃ st2,
       step hostname st1 (QueryDone r) = Some st2
       ∧ (∀ tab rest u d,
            r = Some (tab :: rest) → tab_url tab = Some u → u ≠ "" →
            hostname u = Some d → ws st = Some s →
            sent st2
            = sent st ++ [(s, mkContext "chrome" u d
                               (JS.or_else (tab_title tab) "") (detectApp d))])
       ∧ ((r = None ∨ r = Some []
           ∨ ∃ tab rest, r = Some (tab :: rest)
                         ∧ (tab_url tab = None ∨ tab_url tab = Some "")) →
          sent st2 = sent st))
  ∧ (∀ es st2 r st3,
       run hostname es st1 = Some st2 →
       step hostname st2 (QueryDone r) = Some st3 →
       (∀ tab rest u d s',
          r = Some (tab :: rest) → tab_url tab = Some u → u ≠ "" →
          hostname u = Some d →
          ws st2 = Some s' → sockets st2 !! s' = Some OPEN →
          sent st3
          = sent st2 ++ [(s', mkContext "chrome" u d
                                (JS.or_else (tab_title tab) "")
                                (detectApp d))])
       ∧ ((r = None ∨ r = Some []
           ∨ ∃ tab rest, r = Some (tab :: rest)
                         ∧ (tab_url tab = None ∨ tab_url tab = Some ""
                            ∨ ∃ u, tab_url tab = Some u
                                   ∧ hostname u = None)) →
          sent st3 = sent st2)
       ∧ (ws_open st2 = false → sent st3 = sent st2)).
Proof.
  intros Hreach Hstep. pose proof (timer_inv_reachable st Hreach) as Hinv.
  cbn in Hstep. destruct (sockets st !! s) as [[]|] eqn:Hs; simplify_eq.
  destruct (timer_inv_onopen (set_readyState s OPEN st)) as (_ & Hri & Ht);
    [done|].
  split; [done|]. split; [done|].
  assert (sockets (onopen (set_readyState s OPEN st)) !! s = Some OPEN)
    as Hopen.
  { unfold onopen. destruct (timer_truthy _); cbn; by rewrite lookup_insert_eq. }
  assert (ws (onopen (set_readyState s OPEN st)) = ws st) as Hws.
  { unfold onopen. by destruct (timer_truthy _). }
  assert (sent (onopen (set_readyState s OPEN st)) = sent st) as Hsent.
  { unfold onopen. by destruct (timer_truthy _). }
  assert (pending (onopen (set_readyState s OPEN st)) = S (pending st))
    as Hpend.
  { unfold onopen. by destruct (timer_truthy _). }
  split; [done|]. split; [done|]. split; [done|].
  clear Hri Ht. revert Hopen Hws Hsent Hpend.
  generalize (onopen (set_readyState s OPEN st)). intros st1 Hopen Hws Hsent Hpend.
  split.
  - intros r.
    assert (∃ st2, step hostname st1 (QueryDone r) = Some st2) as [st2 Hq].
    { cbn [step]. rewrite Hpend. by eexists. }
    exists st2. split; [done|].
    destruct (query_answer st1 r st2 Hq) as (Hgood & Hnone & _). split.
    + intros tab rest u d Hr Hu Hne Hd Hcur. rewrite <- Hsent.
      apply (Hgood tab rest u d s); try done. by rewrite Hws.
    + intros Hbad. rewrite <- Hsent. apply Hnone.
      destruct Hbad as [-> | [-> | (tab & rest & -> & [Hu | Hu])]];
        [by left | by right; left | |];
        right; right; exists tab, rest; (split; [done|]); by auto.
  - intros es st2 r st3 _ Hq. by apply query_answer.
Qed.

(** A query answer whose first tab has no URL leaves the state as it
    is. *)
Lemma resume_without_url (st : state) (title : option string)
    (rest : list Tab) :
  sendCurrentContext_resume hostname (Some (mkTab None title :: rest)) st = st.
Proof. reflexivity. Qed.

End Bridge.

Lemma reconnect_timer_discipline_witness :
  size (BridgeClient.timers BridgeClient.start) ≤ 1
  ∧ ∃ st',
      BridgeClient.step BridgeClient.sample_hostname BridgeClient.start
        (BridgeClient.SocketClose 0) = Some st'
      ∧ BridgeClient.ws st' = None
      ∧ BridgeClient.reconnectInterval st' = Some 1
      ∧ BridgeClient.timers st' = {[ 1 := 5000%Z ]}.
Proof.
  destruct (reconnect_timer_discipline BridgeClient.sample_hostname
              BridgeClient.start
              (BridgeClient.reachable_start BridgeClient.sample_hostname))
    as (Hsize & Hclose & _).
  split; [exact Hsize|]. eexists. split; [reflexivity|].
  destruct (Hclose 0 _ eq_refl) as (Hws & (t & Hri & Ht) & _).
  split; [exact Hws|]. split; [reflexivity|].
  injection Hri as <-. exact Ht.
Defined.

(** C8 (as stated, refuted): the socket opens while the active tab exposes
    no URL to the extension.  The client is connected, the query has
    answered, and nothing has been pushed to the server. *)
Lemma onopen_without_url_counterexample :
  ∃ st1 st2,
    BridgeClient.step BridgeClient.sample_hostname BridgeClient.start
      (BridgeClient.SocketOpen 0) = Some st1
    ∧ BridgeClient.step BridgeClient.sample_hostname st1
        (BridgeClient.QueryDone
           (Some [BridgeClient.mkTab None (Some "New Tab")])) = Some st2
    ∧ BridgeClient.ws st2 = Some 0
    ∧ BridgeClient.sockets st2 !! 0 = Some BridgeClient.OPEN
    ∧ BridgeClient.pending st2 = 0
    ∧ BridgeClient.sent st2 = [].
Proof.
  eexists _, _. split; [reflexivity|]. split; [reflexivity|].
  repeat split; reflexivity.
Qed.

Lemma onopen_resync_witness :
  ∃ st1 st2,
    BridgeClient.step BridgeClient.sample_hostname BridgeClient.start
      (BridgeClient.SocketOpen 0) = Some st1
    ∧ BridgeClient.timers st1 = ∅
    ∧ BridgeClient.step BridgeClient.sample_hostname st1
        (BridgeClient.QueryDone
           (Some [BridgeClient.mkTab
                    (Some "https://mail.google.com/mail/u/0/")
                    (Some "Inbox")])) = Some st2
    ∧ BridgeClient.sent st2
      = [(0, BridgeClient.mkContext "chrome"
               "https://mail.google.com/mail/u/0/" "mail.google.com"
               "Inbox" (BridgeClient.App "gmail"))].
Proof.
  destruct (onopen_resync BridgeClient.sample_hostname BridgeClient.start 0 _
              (BridgeClient.reachable_start BridgeClient.sample_hostname)
              eq_refl)
    as (_ & Ht & _ & _ & _ & Hq & _).
  destruct (Hq (Some [BridgeClient.mkTab
                        (Some "https://mail.google.com/mail/u/0/")
                        (Some "Inbox")]))
    as (st2 & Hstep & Hsend & _).
  eexists _, st2. split; [reflexivity|]. split; [exact Ht|].
  split; [exact Hstep|].
  rewrite (Hsend (BridgeClient.mkTab
                    (Some "https://mail.google.com/mail/u/0/") (Some "Inbox"))
             [] "https://mail.google.com/mail/u/0/" "mail.google.com");
    [reflexivity | reflexivity | reflexivity | discriminate
    | reflexivity | reflexivity].
Defined.

(** C10 (the code at the failing input): the first socket fails, the timer
    starts a second one, and the next tick finds it still connecting, so
    [connect] starts a third.  Both then open: two connections are live,
    and the handle names only the last. *)
Theorem connect_duplicate_connections (hostname : string → option string) :
  ∃ mid final,
    BridgeClient.run hostname
      [BridgeClient.SocketClose 0; BridgeClient.Tick 1]
      BridgeClient.start = Some mid
    ∧ BridgeClient.ws mid = Some 1
    ∧ BridgeClient.sockets mid !! 1 = Some BridgeClient.CONNECTING
    ∧ BridgeClient.ws (BridgeClient.connect mid) = Some 2
    ∧ BridgeClient.run hostname
        [BridgeClient.Tick 1; BridgeClient.SocketOpen 1;
         BridgeClient.SocketOpen 2] mid = Some final
    ∧ BridgeClient.live final = [1; 2]
    ∧ BridgeClient.ws final = Some 2
    ∧ BridgeClient.reachable hostname final.
Proof.
  eexists _, _. split; [reflexivity|]. split; [reflexivity|].
  split; [reflexivity|]. split; [reflexivity|]. split; [reflexivity|].
  split; [reflexivity|]. split; [reflexivity|].
  apply (reachable_run hostname
           [BridgeClient.SocketClose 0; BridgeClient.Tick 1;
            BridgeClient.Tick 1; BridgeClient.SocketOpen 1;
            BridgeClient.SocketOpen 2] BridgeClient.start);
    [apply BridgeClient.reachable_start | reflexivity].
Qed.

(** The handle can also be lost: the third socket fails while the second
    is still connecting, and when the second opens the handle is null.
    The context of a perfectly good tab is then not sent, and no timer is
    left to reconnect. *)
Example open_with_null_handle :
  ∃ final,
    BridgeClient.run BridgeClient.sample_hostname
      [BridgeClient.SocketClose 0; BridgeClient.Tick 1; BridgeClient.Tick 1;
       BridgeClient.SocketClose 2; BridgeClient.SocketOpen 1;
       BridgeClient.QueryDone
         (Some [BridgeClient.mkTab
                  (Some "https://mail.google.com/mail/u/0/") (Some "Inbox")])]
      BridgeClient.start = Some final
    ∧ BridgeClient.live final = [1]
    ∧ BridgeClient.ws final = None
    ∧ BridgeClient.timers final = ∅
    ∧ BridgeClient.sent final = [].
Proof. eexists. repeat split; reflexivity. Qed.

(** * Further properties of the code *)

(** Between the open event and the answer of the tab query other events
    come in.  When the socket closes first, or the server starts the
    closing handshake first, the answer finds no open socket under the
    handle and nothing is sent. *)
Example close_before_answer :
  ∃ st1 st2,
    BridgeClient.run BridgeClient.sample_hostname
      [BridgeClient.SocketOpen 0; BridgeClient.SocketClose 0;
       BridgeClient.QueryDone
         (Some [BridgeClient.mkTab
                  (Some "https://mail.google.com/mail/u/0/") (Some "Inbox")])]
      BridgeClient.start = Some st1
    ∧ BridgeClient.sent st1 = []
    ∧ BridgeClient.run BridgeClient.sample_hostname
        [BridgeClient.SocketOpen 0; BridgeClient.SocketClosing 0;
         BridgeClient.QueryDone
           (Some [BridgeClient.mkTab
                    (Some "https://mail.google.com/mail/u/0/")
                    (Some "Inbox")])]
        BridgeClient.start = Some st2
    ∧ BridgeClient.ws st2 = Some 0
    ∧ BridgeClient.sockets st2 !! 0 = Some BridgeClient.CLOSING
    ∧ BridgeClient.sent st2 = [].
Proof. eexists _, _. repeat split; reflexivity. Qed.

(** ** The bridge client: sockets, handle and frames *)

Section BridgeInvariants.

Import BridgeClient.

Variable hostname : string → option string.

Lemma onopen_fields (st : state) :
  ws (onopen st) = ws st ∧ sockets (onopen st) = sockets st
  ∧ next_socket (onopen st) = next_socket st ∧ sent (onopen st) = sent st
  ∧ pending (onopen st) = S (pending st).
Proof. unfold onopen. by destruct (timer_truthy _). Qed.

Lemma onclose_fields (st : state) :
  ws (onclose st) = None ∧ sockets (onclose st) = sockets st
  ∧ next_socket (onclose st) = next_socket st ∧ sent (onclose st) = sent st
  ∧ pending (onclose st) = pending st.
Proof. unfold onclose. by destruct (negb _). Qed.

Lemma connect_fields (st : state) :
  sent (connect st) = sent st ∧ pending (connect st) = pending st
  ∧ (connect st = st
     ∨ (ws_open st = false
        ∧ ws (connect st) = Some (next_socket st)
        ∧ sockets (connect st) = <[next_socket st := CONNECTING]> (sockets st)
        ∧ next_socket (connect st) = S (next_socket st))).
Proof.
  unfold connect. destruct (ws_open st); [by auto|].
  repeat split. by right.
Qed.

(** What the resumed [sendCurrentContext] does: nothing, or one frame on
    the open socket the handle names, built from the tab. *)
Lemma resume_fields (r : option (list Tab)) (st : state) :
  let st' := sendCurrentContext_resume hostname r st in
  ws st' = ws st ∧ sockets st' = sockets st
  ∧ next_socket st' = next_socket st ∧ pending st' = pending st
  ∧ (sent st' = sent st
     ∨ ∃ s tab rest u d,
         r = Some (tab :: rest) ∧ tab_url tab = Some u ∧ u ≠ ""
         ∧ hostname u = Some d ∧ ws st = Some s
         ∧ sockets st !! s = Some OPEN
         ∧ sent st'
           = sent st ++ [(s, mkContext "chrome" u d
                               (JS.or_else (tab_title tab) "")
                               (detectApp d))]).
Proof.
  cbv zeta. unfold sendCurrentContext_resume.
  destruct r as [[|tab rest]|];
    [by repeat split; try left | | by repeat split; try left].
  destruct (tab_url tab) as [u|] eqn:Hu; [|by repeat split; try left].
  destruct (JS.truthy u) eqn:Ht; [|by repeat split; try left].
  destruct (hostname u) as [d|] eqn:Hd; [|by repeat split; try left].
  unfold sendContext.
  destruct (ws st) as [s|] eqn:Hws; [|by repeat split; try left].
  case_bool_decide as Hopen; [|by repeat split; try left].
  cbn. repeat split; try done. right.
  exists s, tab, rest, u, d. repeat split; try done.
  by intros ->.
Qed.

(** The sockets created so far are those numbered below [next_socket]. *)
Lemma sockets_dom (st : state) :
  reachable hostname st →
  ∀ s, is_Some (sockets st !! s) ↔ s < next_socket st.
Proof.
  induction 1 as [|st e st' _ IH Hstep]; intros k.
  - cbn. rewrite lookup_insert_is_Some, lookup_empty, is_Some_alt.
    split; [intros [<- | [_ []]]; lia | intros; left; lia].
  - assert (∀ s r, is_Some (sockets st !! s) →
              is_Some (<[s := r]> (sockets st) !! k) ↔ k < next_socket st)
      as Hset.
    { intros s r Hs. rewrite lookup_insert_is_Some, <- IH.
      split; [intros [<- | [_ ?]]; done|].
      intros ?. destruct (decide (s = k)); [by left | by right]. }
    destruct e as [s|s|s|t| |complete active|r|s]; cbn in Hstep.
    8:{ destruct (sockets st !! s) as [[]|] eqn:Hs; simplify_eq.
        cbn. apply Hset. by rewrite Hs. }
    + destruct (sockets st !! s) as [[]|] eqn:Hs; simplify_eq.
      destruct (onopen_fields (set_readyState s OPEN st)) as (_ & -> & -> & _).
      cbn. apply Hset. by rewrite Hs.
    + destruct (sockets st !! s) as [[]|] eqn:Hs; simplify_eq;
        destruct (onclose_fields (set_readyState s CLOSED st))
          as (_ & -> & -> & _); cbn; apply Hset; by rewrite Hs.
    + destruct (sockets st !! s); by simplify_eq.
    + destruct (timers st !! t); simplify_eq.
      destruct (connect_fields st) as (_ & _ & [-> | (_ & _ & -> & ->)]);
        [done|].
      rewrite lookup_insert_is_Some, IH. lia.
    + by simplify_eq.
    + simplify_eq. by destruct (complete && active).
    + destruct (pending st); simplify_eq.
      destruct (resume_fields r
                  (mkState (ws st) (reconnectInterval st) (sockets st)
                     (next_socket st) (timers st) (next_timer st) n
                     (sent st))) as (_ & -> & -> & _).
      done.
Qed.

(** X3: in every state the script can reach, the handle [ws] is null or
    names a socket the script has created that is not closed (it is
    connecting, open or in the closing handshake): the handle never
    dangles on a closed socket. *)
Theorem handle_names_live_socket (st : state) (s : nat) :
  reachable hostname st → ws st = Some s →
  s < next_socket st
  ∧ ∃ r, sockets st !! s = Some r ∧ r ≠ CLOSED.
Proof.
  intros Hreach Hws.
  enough (∃ r, sockets st !! s = Some r ∧ r ≠ CLOSED) as Hlive.
  { split; [|done]. apply (sockets_dom st Hreach).
    destruct Hlive as (r & -> & _). by eexists. }
  revert s Hws. induction Hreach as [|st e st' Hreach IH Hstep]; intros k Hws.
  - cbn in Hws. simplify_eq. exists CONNECTING. cbn.
    by rewrite lookup_insert_eq.
  - assert (∀ s r, r ≠ CLOSED → ws st = Some k →
              ∃ r', <[s := r]> (sockets st) !! k = Some r' ∧ r' ≠ CLOSED)
      as Hset.
    { intros s r Hr Hk. destruct (decide (s = k)) as [->|Hne].
      - exists r. by rewrite lookup_insert_eq.
      - rewrite lookup_insert_ne by done. by apply IH. }
    destruct e as [s|s|s|t| |complete active|r|s]; cbn in Hstep.
    + destruct (sockets st !! s) as [[]|] eqn:Hs; simplify_eq.
      destruct (onopen_fields (set_readyState s OPEN st)) as (Hw & Hso & _).
      rewrite Hw in Hws. rewrite Hso. cbn in Hws |- *. by apply Hset.
    + destruct (sockets st !! s) as [[]|] eqn:Hs; simplify_eq;
        destruct (onclose_fields (set_readyState s CLOSED st)) as (Hw & _);
        by rewrite Hw in Hws.
    + destruct (sockets st !! s); simplify_eq. by apply IH.
    + destruct (timers st !! t); simplify_eq.
      destruct (connect_fields st)
        as (_ & _ & [Heq | (_ & Hw & Hso & _)]).
      * rewrite Heq in Hws |- *. by apply IH.
      * rewrite Hw in Hws. simplify_eq. rewrite Hso. exists CONNECTING.
        by rewrite lookup_insert_eq.
    + simplify_eq. by apply IH.
    + simplify_eq. destruct (complete && active); by apply IH.
    + destruct (pending st); simplify_eq.
      destruct (resume_fields r
                  (mkState (ws st) (reconnectInterval st) (sockets st)
                     (next_socket st) (timers st) (next_timer st) n
                     (sent st))) as (Hw & Hso & _).
      rewrite Hw in Hws. rewrite Hso. by apply IH.
    + destruct (sockets st !! s) as [[]|] eqn:Hs; simplify_eq.
      cbn in Hws |- *. by apply Hset.
Qed.



Lemma step_sent (st : state) (e : event) (st' : state) :
  step hostname st e = Some st' →
  sent st' = sent st ∨ (is_query e = true ∧ ∃ f, sent st' = sent st ++ [f]).
Proof.
  intros Hstep. destruct e as [k|k|k|t| |complete active|r|k];
    cbn in Hstep.
  8:{ destruct (sockets st !! k) as [[]|]; simplify_eq. by left. }
  - destruct (sockets st !! k) as [[]|]; simplify_eq. left.
    by destruct (onopen_fields (set_readyState k OPEN st))
      as (_ & _ & _ & -> & _).
  - destruct (sockets st !! k) as [[]|]; simplify_eq; left;
      by destruct (onclose_fields (set_readyState k CLOSED st))
        as (_ & _ & _ & -> & _).
  - destruct (sockets st !! k); simplify_eq. by left.
  - destruct (timers st !! t); simplify_eq. left.
    by destruct (connect_fields st) as (-> & _).
  - simplify_eq. by left.
  - simplify_eq. left. by destruct (complete && active).
  - destruct (pending st); simplify_eq.
    pose proof (resume_fields r
                  (mkState (ws st) (reconnectInterval st) (sockets st)
                     (next_socket st) (timers st) (next_timer st) n
                     (sent st))) as Hres.
    cbv zeta in Hres. destruct Hres as (_ & _ & _ & _ & [Hsent | Hsent]).
    + by left.
    + right. split; [done|].
      destruct Hsent as (s & tab & rest & u & d & _ & _ & _ & _ & _ & _ & ->).
      by eexists.
Qed.

(** X5: frames are only ever added at the end of what was sent, and only
    when a tab query completes: over any run of events the script sends at
    most one frame per completed query, and none on socket, timer or tab
    events as such. *)
Theorem frames_bounded_by_queries (es : list event) (st st' : state) :
  run hostname es st = Some st' →
  sent st `prefix_of` sent st'
  ∧ length (sent st') ≤ length (sent st) + length (List.filter is_query es).
Proof.
  revert st. induction es as [|e es IH]; intros st Hrun; cbn in Hrun.
  - simplify_eq. split; [done | cbn; lia].
  - destruct (step hostname st e) as [st1|] eqn:Hstep; [|done].
    destruct (IH st1 Hrun) as (Hpre & Hlen).
    destruct (step_sent st e st1 Hstep) as [Heq | (Hq & f & Heq)].
    + rewrite Heq in Hpre, Hlen. split; [done|].
      cbn. destruct (is_query e); cbn; lia.
    + rewrite Heq in Hpre, Hlen. split.
      * etrans; [|exact Hpre]. by apply prefix_app_r.
      * cbn. rewrite Hq. rewrite length_app in Hlen. cbn in Hlen |- *. lia.
Qed.

(** Paced runs are runs. *)
Lemma paced_reachable (st : state) : paced hostname st → reachable hostname st.
Proof.
  induction 1 as [|st e st' _ IH Hstep _]; [apply reachable_start|].
  by apply (reachable_step hostname st e).
Qed.

(** While a reconnect timer is set, the handle is null or names a socket
    that is still connecting. *)
Lemma handle_while_timer (st : state) (k : nat) :
  reachable hostname st → is_Some (reconnectInterval st) →
  ws st = Some k → sockets st !! k = Some CONNECTING.
Proof.
  intros Hreach. revert k.
  induction Hreach as [|st e st' Hreach IH Hstep]; intros k Hri Hws.
  - by destruct Hri as [t [=]].
  - pose proof (timer_inv_reachable hostname st Hreach) as Hinv.
    destruct e as [s|s|s|t| |complete active|r|s]; cbn in Hstep.
    + destruct (sockets st !! s) as [[]|]; simplify_eq.
      destruct (timer_inv_onopen (set_readyState s OPEN st)) as (_ & Hn & _);
        [done|]. rewrite Hn in Hri. by destruct Hri as [t [=]].
    + destruct (sockets st !! s) as [[]|]; simplify_eq;
        destruct (onclose_fields (set_readyState s CLOSED st)) as (Hw & _);
        by rewrite Hw in Hws.
    + destruct (sockets st !! s); simplify_eq. by apply IH.
    + destruct (timers st !! t); simplify_eq.
      destruct (connect_fields st)
        as (_ & _ & [Heq | (_ & Hw & Hso & _)]).
      * rewrite Heq in Hri, Hws |- *. by apply IH.
      * rewrite Hw in Hws. simplify_eq. rewrite Hso.
        by rewrite lookup_insert_eq.
    + simplify_eq. by apply IH.
    + simplify_eq. destruct (complete && active); by apply IH.
    + destruct (pending st); simplify_eq.
      destruct (resume_fields r
                  (mkState (ws st) (reconnectInterval st) (sockets st)
                     (next_socket st) (timers st) (next_timer st) n
                     (sent st))) as (Hw & Hso & _).
      rewrite Hw in Hws. rewrite Hso. apply IH; [|done]. revert Hri.
      unfold sendCurrentContext_resume, sendContext. repeat case_match; done.
    + destruct (sockets st !! s) as [[]|] eqn:Hs; simplify_eq.
      cbn in Hri, Hws |- *. pose proof (IH k Hri Hws) as Hk.
      rewrite lookup_insert_ne; [done|]. intros ->. congruence.
Qed.

(** In a paced run no socket is left behind: whatever is not closed is the
    socket the handle names. *)
Lemma paced_inv (st : state) :
  paced hostname st →
  ∀ s r, sockets st !! s = Some r → r ≠ CLOSED → ws st = Some s.
Proof.
  induction 1 as [|st e st' Hp IH Hstep Hpace].
  - intros s r H Hr. cbn in H |- *.
    apply lookup_insert_Some in H as [[<- _]|[_ H]]; done.
  - pose proof (paced_reachable st Hp) as Hreach.
    destruct e as [k|k|k|t| |complete active|r|k]; cbn in Hstep.
    + destruct (sockets st !! k) as [[]|] eqn:Hk; simplify_eq.
      destruct (onopen_fields (set_readyState k OPEN st)) as (-> & -> & _).
      cbn. intros s r H Hr.
      apply lookup_insert_Some in H as [[<- _]|[_ H]].
      * by apply (IH k CONNECTING).
      * by apply (IH s r).
    + assert (ws st = Some k) as Hwk.
      { destruct (sockets st !! k) as [[]|] eqn:Hk; simplify_eq;
          by eapply IH. }
      assert (st' = onclose (set_readyState k CLOSED st)) as ->.
      { destruct (sockets st !! k) as [[]|]; by simplify_eq. }
      destruct (onclose_fields (set_readyState k CLOSED st)) as (-> & -> & _).
      cbn. intros s r H Hr.
      apply lookup_insert_Some in H as [[_ <-]|[Hne H]]; [done|].
      specialize (IH s r H Hr). congruence.
    + destruct (sockets st !! k); by simplify_eq.
    + destruct (timers st !! t) as [z|] eqn:Ht; simplify_eq.
      destruct (connect_fields st)
        as (_ & _ & [-> | (Hno & -> & -> & _)]); [done|].
      intros s r H Hr.
      apply lookup_insert_Some in H as [[<- _]|[Hne H]]; [done|].
      exfalso. pose proof (IH s r H Hr) as Hws.
      assert (is_Some (reconnectInterval st)) as Hri.
      { destruct (timer_inv_reachable hostname st Hreach) as (Htm & _).
        rewrite Htm in Ht. destruct (reconnectInterval st); [by eexists|].
        cbn in Ht. by rewrite lookup_empty in Ht. }
      pose proof (handle_while_timer st s Hreach Hri Hws) as Hconn.
      by apply (Hpace t eq_refl s).
    + by simplify_eq.
    + simplify_eq. by destruct (complete && active).
    + destruct (pending st); simplify_eq.
      destruct (resume_fields r
                  (mkState (ws st) (reconnectInterval st) (sockets st)
                     (next_socket st) (timers st) (next_timer st) n
                     (sent st))) as (-> & -> & _).
      done.
    + destruct (sockets st !! k) as [[]|] eqn:Hk; simplify_eq.
      cbn. intros s r H Hr.
      apply lookup_insert_Some in H as [[<- _]|[_ H]].
      * by apply (IH k OPEN).
      * by apply (IH s r).
Qed.

(** X6: as long as no tick of the reconnect timer comes while a socket is
    still connecting, at most one socket is not closed, it is the one the
    handle names, and so at most one connection is live. *)
Theorem paced_single_connection (st : state) :
  paced hostname st →
  (∀ s r, sockets st !! s = Some r → r ≠ CLOSED → ws st = Some s)
  ∧ length (live st) ≤ 1.
Proof.
  intros Hp. pose proof (paced_inv st Hp) as Hinv. split; [done|].
  unfold live.
  assert (NoDup (filter (λ s, sockets st !! s = Some OPEN)
                   (seq 0 (next_socket st)))) as Hnd
    by apply NoDup_filter, NoDup_seq.
  destruct (filter _ _) as [|a [|b l]] eqn:E; cbn; [lia | lia |].
  exfalso.
  assert (a ∈ a :: b :: l) as Ha by apply list_elem_of_here.
  assert (b ∈ a :: b :: l) as Hb
    by apply list_elem_of_further, list_elem_of_here.
  rewrite <- E in Ha, Hb.
  apply list_elem_of_filter in Ha as [Ha _], Hb as [Hb _].
  pose proof (Hinv a OPEN Ha ltac:(done)) as Hwa.
  pose proof (Hinv b OPEN Hb ltac:(done)) as Hwb.
  rewrite Hwa in Hwb. injection Hwb as ->.
  apply NoDup_cons in Hnd as [Hnot _]. apply Hnot, list_elem_of_here.
Qed.

(** X7: the reconnect cycle restores the context.  From any reachable
    state, once a socket has closed, the tick of the timer it left, the
    opening of the socket that tick creates and the answer of the tab
    query end with the timer stopped, the handle on the new open socket
    and the tab's full context sent on it as the last frame. *)
Theorem reconnect_resync (st : state) (s : nat) (st1 : state)
    (tab : Tab) (rest : list Tab) (u d : string) :
  reachable hostname st →
  step hostname st (SocketClose s) = Some st1 →
  tab_url tab = Some u → u ≠ "" → hostname u = Some d →
  ∃ t st4,
    reconnectInterval st1 = Some t
    ∧ run hostname
        [Tick t; SocketOpen (next_socket st);
         QueryDone (Some (tab :: rest))] st1 = Some st4
    ∧ ws st4 = Some (next_socket st)
    ∧ sockets st4 !! next_socket st = Some OPEN
    ∧ timers st4 = ∅ ∧ reconnectInterval st4 = None
    ∧ sent st4
      = sent st ++ [(next_socket st,
                     mkContext "chrome" u d (JS.or_else (tab_title tab) "")
                       (detectApp d))].
Proof.
  intros Hreach Hstep Hu Hne Hd.
  pose proof (timer_inv_reachable hostname st Hreach) as Hinv.
  assert (st1 = onclose (set_readyState s CLOSED st)) as ->.
  { cbn in Hstep. destruct (sockets st !! s) as [[]|]; by simplify_eq. }
  clear Hstep.
  destruct (timer_inv_onclose (set_readyState s CLOSED st))
    as (Hinv1 & Hws1 & (t & Hri1 & Ht1) & _); [done|].
  destruct (onclose_fields (set_readyState s CLOSED st))
    as (_ & _ & Hnext1 & Hsent1 & Hpend1).
  revert Hinv1 Hws1 Hri1 Ht1 Hnext1 Hsent1 Hpend1.
  generalize (onclose (set_readyState s CLOSED st)). cbn [set_readyState
    next_socket sent pending].
  intros st1 Hinv1 Hws1 Hri1 Ht1 Hnext1 Hsent1 Hpend1.
  exists t. cbn [run]. cbn [step]. rewrite Ht1, lookup_singleton_eq.
  (* the tick *)
  assert (ws_open st1 = false) as Hclosed by (unfold ws_open; by rewrite Hws1).
  destruct (connect_attempt st1 Hclosed) as (Hws2 & Hso2).
  pose proof (timer_inv_connect st1 Hinv1) as Hinv2.
  destruct (connect_fields st1) as (Hsent2 & _ & _).
  revert Hinv2 Hws2 Hso2 Hsent2. rewrite Hnext1, Hsent1.
  generalize (connect st1). intros st2 Hinv2 Hws2 Hso2 Hsent2.
  (* the open event *)
  rewrite Hso2.
  destruct (timer_inv_onopen (set_readyState (next_socket st) OPEN st2))
    as (_ & Hri3 & Ht3); [done|].
  destruct (onopen_fields (set_readyState (next_socket st) OPEN st2))
    as (Hws3 & Hso3 & _ & Hsent3 & Hpend3).
  revert Hri3 Ht3 Hws3 Hso3 Hsent3 Hpend3.
  generalize (onopen (set_readyState (next_socket st) OPEN st2)).
  cbn [set_readyState ws sockets sent pending].
  intros st3 Hri3 Ht3 Hws3 Hso3 Hsent3 Hpend3.
  (* the answer of the query *)
  rewrite Hpend3. eexists. split; [done|]. split; [reflexivity|].
  unfold sendCurrentContext_resume. rewrite Hu, Hd.
  destruct u as [|c u]; [done|]. cbn [JS.truthy].
  unfold sendContext. cbn [ws sockets].
  rewrite Hws3, Hws2, Hso3, lookup_insert_eq.
  rewrite bool_decide_eq_true_2 by done.
  cbn [ws sockets timers reconnectInterval sent].
  rewrite lookup_insert_eq, Hsent3, Hsent2. done.
Qed.

End BridgeInvariants.

(** Instances of the above on concrete runs. *)
Section BridgeInstances.

Import BridgeClient.

Lemma handle_names_live_socket_witness :
  0 < next_socket
        (set_readyState 0 CLOSING (onopen (set_readyState 0 OPEN start)))
  ∧ ∃ r,
      sockets
        (set_readyState 0 CLOSING (onopen (set_readyState 0 OPEN start)))
        !! 0 = Some r
      ∧ r ≠ CLOSED.
Proof.
  apply (handle_names_live_socket sample_hostname
           (set_readyState 0 CLOSING (onopen (set_readyState 0 OPEN start)))
           0); [|reflexivity].
  apply (reachable_run sample_hostname [SocketOpen 0; SocketClosing 0] start);
    [apply reachable_start | reflexivity].
Defined.


Lemma frames_bounded_by_queries_witness :
  ∃ st',
    run sample_hostname
      [SocketOpen 0; TabActivated;
       QueryDone
         (Some [mkTab (Some "https://mail.google.com/mail/u/0/")
                  (Some "Inbox")]);
       SocketClose 0; QueryDone (Some [])] start = Some st'
    ∧ length (sent st') ≤ 2.
Proof.
  eexists. split; [reflexivity|].
  refine (proj2 (frames_bounded_by_queries sample_hostname
                   [SocketOpen 0; TabActivated;
                    QueryDone
                      (Some [mkTab (Some "https://mail.google.com/mail/u/0/")
                               (Some "Inbox")]);
                    SocketClose 0; QueryDone (Some [])] start _ _)).
  reflexivity.
Defined.

Lemma paced_single_connection_witness :
  ws (onopen (set_readyState 0 OPEN start)) = Some 0
  ∧ length (live (onopen (set_readyState 0 OPEN start))) ≤ 1.
Proof.
  destruct (paced_single_connection sample_hostname
              (onopen (set_readyState 0 OPEN start))) as (Hall & Hlen).
  - apply (paced_step sample_hostname start (SocketOpen 0));
      [apply paced_start | reflexivity | by intros t [=]].
  - split; [|exact Hlen]. by apply (Hall 0 OPEN).
Defined.

Lemma reconnect_resync_witness :
  ∃ t st4,
    reconnectInterval (onclose (set_readyState 0 CLOSED start)) = Some t
    ∧ run sample_hostname
        [Tick t; SocketOpen 1;
         QueryDone
           (Some [mkTab (Some "https://mail.google.com/mail/u/0/")
                    (Some "Inbox")])]
        (onclose (set_readyState 0 CLOSED start)) = Some st4
    ∧ ws st4 = Some 1
    ∧ sockets st4 !! 1 = Some OPEN
    ∧ timers st4 = ∅ ∧ reconnectInterval st4 = None
    ∧ sent st4
      = [(1, mkContext "chrome" "https://mail.google.com/mail/u/0/"
               "mail.google.com" "Inbox" (App "gmail"))].
Proof.
  apply (reconnect_resync sample_hostname start 0 _
           (mkTab (Some "https://mail.google.com/mail/u/0/") (Some "Inbox"))
           [] "https://mail.google.com/mail/u/0/" "mail.google.com");
    [apply reachable_start | reflexivity | reflexivity | discriminate
    | reflexivity].
Defined.

End BridgeInstances.

(** ** The domain table and the factory defaults *)

Section Tables.

Import ContextMappingsList.

Lemma detectApp_listed (d a : string) :
  (d, a) ∈ BridgeClient.domain_mappings →
  BridgeClient.detectApp d = BridgeClient.App a.
Proof.
  unfold BridgeClient.domain_mappings. intros H.
  repeat (apply elem_of_cons in H as [[= -> ->]|H]; [reflexivity|]).
  by apply elem_of_nil in H.
Qed.

Lemma detectApp_App (d a : string) :
  BridgeClient.detectApp d = BridgeClient.App a →
  (d, a) ∈ BridgeClient.domain_mappings.
Proof.
  unfold BridgeClient.detectApp.
  destruct (List.find _ _) as [[d' a']|] eqn:E.
  - apply find_some in E as [Hin Heq]. cbn in Heq. apply str_eq_true in Heq.
    subst d'. cbn. destruct (JS.truthy a'); [|done].
    intros [= <-]. by apply list_elem_of_In.
  - by case_bool_decide.
Qed.

Lemma detectApp_inherited (d : string) :
  d ∈ BridgeClient.prototype_members →
  BridgeClient.detectApp d = BridgeClient.Inherited d.
Proof.
  unfold BridgeClient.prototype_members. intros H.
  repeat (apply elem_of_cons in H as [->|H]; [reflexivity|]).
  by apply elem_of_nil in H.
Qed.

Lemma detectApp_Inherited (d k : string) :
  BridgeClient.detectApp d = BridgeClient.Inherited k →
  k = d ∧ d ∈ BridgeClient.prototype_members.
Proof.
  unfold BridgeClient.detectApp.
  destruct (List.find _ _) as [[d' a']|].
  - cbn. by destruct (JS.truthy a').
  - case_bool_decide; [|done]. by intros [= <-].
Qed.

(** X1: [detectApp] answers the listed app for exactly the host names of
    its table.  For a host name that is not listed it answers null, unless
    the host name is the name of a member of [Object.prototype]: the table
    is a plain object, and [detectApp] then answers that inherited member,
    which is not an app id.  The match is exact, with no suffix or case
    folding. *)
Theorem detectApp_spec (d : string) :
  (∀ a, BridgeClient.detectApp d = BridgeClient.App a
        ↔ (d, a) ∈ BridgeClient.domain_mappings)
  ∧ (∀ k, BridgeClient.detectApp d = BridgeClient.Inherited k
          ↔ k = d ∧ d ∈ BridgeClient.prototype_members)
  ∧ (BridgeClient.detectApp d = BridgeClient.Null
     ↔ (d ∉ (BridgeClient.domain_mappings).*1)
       ∧ (d ∉ BridgeClient.prototype_members)).
Proof.
  split; [|split].
  - intros a. split; [apply detectApp_App | apply detectApp_listed].
  - intros k. split; [apply detectApp_Inherited|].
    intros [-> Hin]. by apply detectApp_inherited.
  - split.
    + intros Hnull. split.
      * intros Hin. apply list_elem_of_fmap in Hin as ([d' a] & -> & Hin).
        apply detectApp_listed in Hin. cbn in Hnull. congruence.
      * intros Hin. apply detectApp_inherited in Hin. congruence.
    + intros [Hnot Hproto].
      destruct (BridgeClient.detectApp d) as [a|k|] eqn:E; [| |done].
      * exfalso. apply Hnot. apply detectApp_App in E.
        apply list_elem_of_fmap. by exists (d, a).
      * exfalso. apply Hproto. by apply detectApp_Inherited in E as [_ ?].
Qed.

(** X2: every app id that [detectApp] answers has a factory default style
    in [DEFAULT_APPS], which the resolver answers when no mapping is
    stored, except "teams_web", which resolves to the generic
    "correction". *)
Theorem detected_apps_have_defaults (d a : string) :
  BridgeClient.detectApp d = BridgeClient.App a →
  (a = "teams_web" ∧ getStyleForApp [] a = "correction")
  ∨ (∃ da, findDefaultApp a = Some da ∧ id da = a
           ∧ getStyleForApp [] a = defaultStyle da
           ∧ defaultStyle da ≠ "correction").
Proof.
  intros H. apply detectApp_App in H.
  unfold BridgeClient.domain_mappings in H.
  repeat (apply elem_of_cons in H as [[= -> ->]|H];
          [first [ left; split; reflexivity
                 | right; eexists; repeat split; discriminate ]|]).
  by apply elem_of_nil in H.
Qed.

Lemma detected_apps_have_defaults_witness :
  ∃ da, findDefaultApp "gmail" = Some da ∧ id da = "gmail"
        ∧ getStyleForApp [] "gmail" = defaultStyle da
        ∧ defaultStyle da ≠ "correction".
Proof.
  destruct (detected_apps_have_defaults "mail.google.com" "gmail" eq_refl)
    as [[Habs _] | H]; [discriminate Habs | exact H].
Defined.

Lemma findDefaultApp_listed (a : DefaultApp) :
  a ∈ DEFAULT_APPS → findDefaultApp (id a) = Some a.
Proof.
  unfold DEFAULT_APPS. intros H.
  repeat (apply elem_of_cons in H as [->|H]; [reflexivity|]).
  by apply elem_of_nil in H.
Qed.

(** X8: for an app listed in [DEFAULT_APPS] that has no mapping in the
    loaded table, the resolver answers the app's factory default, which is
    not empty, and the app is not reported as custom. *)
Theorem getStyleForApp_static_default
    (ms : list ContextMapping) (a : DefaultApp) :
  a ∈ DEFAULT_APPS → id a ∉ app_id <$> ms →
  getStyleForApp ms (id a) = defaultStyle a
  ∧ defaultStyle a ≠ ""
  ∧ isCustomMapping ms (id a) = false.
Proof.
  intros Ha Hno. pose proof (findDefaultApp_listed a Ha) as Hfind.
  pose proof (default_styles_truthy (id a) a Hfind) as Htruthy.
  assert (getStyleForApp ms (id a) = defaultStyle a) as Hres.
  { unfold getStyleForApp. rewrite (findMapping_None ms (id a) Hno), Hfind.
    by apply or_else_truthy. }
  split; [done|]. split.
  - intros E. by rewrite E in Htruthy.
  - unfold isCustomMapping. rewrite Hres, Hfind. cbn.
    by rewrite str_eq_refl.
Qed.

Lemma getStyleForApp_static_default_witness :
  getStyleForApp [mkContextMapping "gmail" "chat"] "vscode" = "code"
  ∧ "code" ≠ ""
  ∧ isCustomMapping [mkContextMapping "gmail" "chat"] "vscode" = false.
Proof.
  apply (getStyleForApp_static_default [mkContextMapping "gmail" "chat"]
           (mkDefaultApp "vscode" "VS Code" "code")).
  - unfold DEFAULT_APPS.
    repeat first [apply list_elem_of_here | apply list_elem_of_further].
  - by_decide.
Defined.

Lemma findMapping_own_entries (ms : list ContextMapping) (appId : string) :
  findMapping (filter (λ m, app_id m = appId) ms) appId = findMapping ms appId.
Proof.
  unfold findMapping. induction ms as [|m ms IH]; [done|].
  rewrite filter_cons. case_decide as Hm; cbn.
  - rewrite Hm, str_eq_refl. done.
  - apply str_eq_false in Hm. by rewrite Hm.
Qed.

(** X9: the style resolved for an app, and whether it counts as custom,
    depend only on the table's entries for that app: entries of other apps
    can be added, changed or removed without effect. *)
Theorem resolution_ignores_other_apps
    (ms : list ContextMapping) (appId : string) :
  getStyleForApp ms appId
  = getStyleForApp (filter (λ m, app_id m = appId) ms) appId
  ∧ isCustomMapping ms appId
    = isCustomMapping (filter (λ m, app_id m = appId) ms) appId.
Proof.
  unfold isCustomMapping, getStyleForApp.
  by rewrite findMapping_own_entries.
Qed.

End Tables.

(** ** Cloud settings: what the handlers keep and what the test tests *)

Section CloudSettings.

Import CloudSTTSettings.

(** X10: when the component's copy of the configuration agrees with the
    stored one, it still does after a key, a model or a provider was set,
    whether the command succeeded or was rejected.  When the host answers
    with an error payload the handlers do not look at it: the copy then
    shows the new key although the stored configuration has not taken
    it. *)
Theorem optimistic_update_coherent (f : JS.fault) (p v : string)
    (h : Host.t) (st : state) :
  config st = Some (Host.cloud h) →
  ((∀ e, f ≠ JS.ErrorPayload e) →
   config (snd (handleApiKeyChange f p v h st))
   = Some (Host.cloud (fst (handleApiKeyChange f p v h st)))
   ∧ config (snd (handleModelChange f p v h st))
     = Some (Host.cloud (fst (handleModelChange f p v h st)))
   ∧ config (snd (handleProviderSelect f p h st))
     = Some (Host.cloud (fst (handleProviderSelect f p h st))))
  ∧ (∀ e, f = JS.ErrorPayload e →
     fst (handleApiKeyChange f p v h st) = h
     ∧ (config (snd (handleApiKeyChange f p v h st))
          ≫= (λ c, api_keys c !! p)) = Some v).
Proof.
  intros Hc. split.
  - intros Hf. destruct f as [|e|]; [| by destruct (Hf e) |];
      cbn; rewrite ?Hc; cbn; by destruct (Host.cloud h).
  - intros e ->. cbn. rewrite Hc. cbn. by rewrite lookup_insert_eq.
Qed.

Lemma optimistic_update_coherent_witness :
  let cfg := mkCloudSTTConfig true (Some "gemini") {["gemini" := "k1"]} ∅ in
  let h := Host.mk [] [] cfg in
  let st := mkState [] (Some cfg) false in
  let after := handleApiKeyChange (JS.ErrorPayload "denied") "gemini" "k2" h st in
  api_keys (Host.cloud (fst after)) !! "gemini" = Some "k1"
  ∧ (config (snd after) ≫= (λ c, api_keys c !! "gemini")) = Some "k2".
Proof.
  intros cfg h st after.
  destruct (optimistic_update_coherent (JS.ErrorPayload "denied")
              "gemini" "k2" h st eq_refl) as (_ & Herr).
  destruct (Herr "denied" eq_refl) as (Hh & Hlocal).
  fold after in Hh, Hlocal. rewrite Hh. split; [reflexivity | exact Hlocal].
Defined.

(** X11: selecting a provider changes no API key, no model selection and
    not the enabled flag, neither in the stored configuration nor in the
    component's copy; the copy's active provider becomes the selected one
    unless the command was rejected. *)
Theorem handleProviderSelect_frame (f : JS.fault) (p : string)
    (h : Host.t) (st : state) :
  let after := handleProviderSelect f p h st in
  api_keys (Host.cloud (fst after)) = api_keys (Host.cloud h)
  ∧ selected_models (Host.cloud (fst after)) = selected_models (Host.cloud h)
  ∧ enabled (Host.cloud (fst after)) = enabled (Host.cloud h)
  ∧ (api_keys <$> config (snd after)) = (api_keys <$> config st)
  ∧ (selected_models <$> config (snd after)) = (selected_models <$> config st)
  ∧ (enabled <$> config (snd after)) = (enabled <$> config st)
  ∧ (active_provider <$> config (snd after))
    = match f with
      | JS.Throws => active_provider <$> config st
      | _ => (λ _, Some p) <$> config st
      end.
Proof.
  cbv zeta. unfold handleProviderSelect, Host.call.
  destruct f; cbn; by destruct (config st).
Qed.

(** X12: [handleTestConnection] answers true exactly when the component's
    configuration holds a non-empty key for the provider and the network
    test of that key succeeds; a missing configuration, a missing or empty
    key, an error payload and a rejected request all give false. *)
Theorem handleTestConnection_true_iff
    (net : string → string → JS.outcome bool) (p : string)
    (h : Host.t) (st : state) :
  snd (handleTestConnection net p h st) = true
  ↔ ∃ c k, config st = Some c ∧ api_keys c !! p = Some k ∧ k ≠ ""
           ∧ net p k = JS.Ok true.
Proof.
  unfold handleTestConnection, Host.testCloudSttConnection.
  destruct (config st) as [c|]; cbn.
  2:{ split; [done|]. by intros (c & k & [=] & _). }
  destruct (api_keys c !! p) as [k|] eqn:Hk; cbn.
  2:{ split; [done|]. intros (c' & k & [= <-] & Hk' & _). congruence. }
  destruct k as [|a k]; cbn.
  { split; [done|]. intros (c' & k & [= <-] & Hk' & Hne & _). congruence. }
  destruct (net p (String a k)) as [[]| |] eqn:Hnet; cbn.
  - split; [|done]. intros _. by exists c, (String a k).
  - split; [done|]. intros (c' & k' & [= <-] & Hk' & _ & Hn). congruence.
  - split; [done|]. intros (c' & k' & [= <-] & Hk' & _ & Hn). congruence.
  - split; [done|]. intros (c' & k' & [= <-] & Hk' & _ & Hn). congruence.
Qed.

(** The verdict of the test does not depend on the host's state. *)
Lemma handleTestConnection_verdict
    (net : string → string → JS.outcome bool) (p : string)
    (h1 h2 : Host.t) (st : state) :
  snd (handleTestConnection net p h1 st)
  = snd (handleTestConnection net p h2 st).
Proof.
  unfold handleTestConnection, Host.testCloudSttConnection.
  destruct (config st ≫= _) as [k|]; [|done].
  destruct (JS.truthy k); [|done]. by destruct (net p k) as [[]| |].
Qed.

(** What the handler itself records with a non-blank field: the spinner
    off, and as verdict the answer for the key in the configuration the
    field was rendered with. *)
Lemma handleTest_handler_state
    (f : JS.fault) (net : string → string → JS.outcome bool) (p : string)
    (rendered : state) (st : ApiKeyInput.state) (h : Host.t) :
  JS.truthy (JS.trim (ApiKeyInput.localValue st)) = true →
  let after :=
    snd (ApiKeyInput.handleTest (apiKeyInputProps f net p rendered) st
           (h, rendered)) in
  ApiKeyInput.isLoading after = false
  ∧ ApiKeyInput.localValue after = ApiKeyInput.localValue st
  ∧ ApiKeyInput.testResult after
    = Some (snd (handleTestConnection net p h rendered)).
Proof.
  intros Htrim. cbv zeta. unfold ApiKeyInput.handleTest. rewrite Htrim.
  cbn [negb]. cbv iota.
  destruct (negb (JS.str_eq _ _)).
  - cbn [ApiKeyInput.onChange ApiKeyInput.onTest apiKeyInputProps].
    destruct (handleApiKeyChange f p (ApiKeyInput.localValue st) h rendered)
      as [h1 st1].
    rewrite (surjective_pairing (handleTestConnection net p h1 rendered)).
    cbn. by rewrite (handleTestConnection_verdict net p h1 h).
  - cbn [ApiKeyInput.onTest apiKeyInputProps].
    rewrite (surjective_pairing (handleTestConnection net p h rendered)).
    done.
Qed.

Lemma trim_truthy (s : string) :
  JS.truthy (JS.trim s) = true → JS.truthy s = true.
Proof. destruct s; [vm_compute; discriminate | done]. Qed.

Lemma or_else_self (v : string) : JS.or_else (Some v) "" = v.
Proof. by destruct v. Qed.

Lemma truthy_ne (s : string) : JS.truthy s = true ↔ s ≠ "".
Proof. destruct s; cbn; split; done. Qed.

(** The parent's state after the handler: what [onChange] left, when the
    handler called it. *)
Lemma handleTest_parent
    (f : JS.fault) (net : string → string → JS.outcome bool) (p : string)
    (rendered : state) (st : ApiKeyInput.state) (h : Host.t) :
  JS.truthy (JS.trim (ApiKeyInput.localValue st)) = true →
  snd (fst (ApiKeyInput.handleTest (apiKeyInputProps f net p rendered) st
              (h, rendered)))
  = if JS.str_eq (ApiKeyInput.localValue st)
         (ApiKeyInput.value (apiKeyInputProps f net p rendered))
    then rendered
    else snd (handleApiKeyChange f p (ApiKeyInput.localValue st) h rendered).
Proof.
  intros Htrim. unfold ApiKeyInput.handleTest. rewrite Htrim.
  cbn [negb]. cbv iota.
  destruct (JS.str_eq _ _); cbn [negb].
  - cbn [ApiKeyInput.onTest apiKeyInputProps].
    by rewrite (surjective_pairing (handleTestConnection net p h rendered)).
  - cbn [ApiKeyInput.onChange ApiKeyInput.onTest apiKeyInputProps].
    destruct (handleApiKeyChange f p (ApiKeyInput.localValue st) h rendered)
      as [h1 st1].
    by rewrite (surjective_pairing (handleTestConnection net p h1 rendered)).
Qed.

(** X13: a press of the test button with a non-blank field ends with the
    spinner off and the typed text kept.  The only key that is tested is
    the one in the configuration the field was rendered with, whatever
    has been typed.  The verdict of that test is shown at the end, unless
    the press itself has stored a differing key and the [value] effect of
    the re-render came last: then no verdict is shown.  The effect always
    comes last when the rendered configuration had no key. *)
Theorem testClick_verdict
    (f : JS.fault) (net : string → string → JS.outcome bool) (p : string)
    (rendered : state) (c : CloudSTTConfig) (answer_first : bool)
    (st : ApiKeyInput.state) (h : Host.t) :
  config rendered = Some c →
  JS.truthy (JS.trim (ApiKeyInput.localValue st)) = true →
  let after := snd (testClick f net p rendered answer_first st h) in
  ApiKeyInput.isLoading after = false
  ∧ ApiKeyInput.localValue after = ApiKeyInput.localValue st
  ∧ ApiKeyInput.testResult after
    = if negb (JS.str_eq (ApiKeyInput.localValue st)
                 (JS.or_else (api_keys c !! p) ""))
         && match f with JS.Throws => false | _ => true end
         && (negb (JS.truthy_opt (api_keys c !! p)) || answer_first)
      then None
      else Some (snd (handleTestConnection net p h rendered)).
Proof.
  intros Hc Htrim. cbv zeta. unfold testClick.
  rewrite (surjective_pairing (ApiKeyInput.handleTest _ st (h, rendered))).
  destruct (handleTest_handler_state f net p rendered st h Htrim)
    as (Hload & Hval & Hres).
  pose proof (handleTest_parent f net p rendered st h Htrim) as Hpar.
  revert Hload Hval Hres Hpar.
  generalize (ApiKeyInput.handleTest (apiKeyInputProps f net p rendered) st
                (h, rendered)).
  intros [w' st'] Hload Hval Hres Hpar. cbn [fst snd] in *.
  cbn [ApiKeyInput.value apiKeyInputProps] in *. rewrite Hc in *.
  cbn [mbind option_bind] in *.
  set (v := ApiKeyInput.localValue st) in *.
  set (v0 := JS.or_else (api_keys c !! p) "") in *.
  destruct (JS.str_eq v v0) eqn:E; cbn [negb andb].
  - rewrite Hpar, Hc. cbn [mbind option_bind]. fold v0.
    rewrite str_eq_refl. cbn [snd]. done.
  - destruct f as [|e|].
    + rewrite Hpar. cbn. rewrite Hc. cbn. rewrite lookup_insert_eq.
      rewrite or_else_self, E.
      destruct (negb (JS.truthy_opt (api_keys c !! p)) || answer_first);
        cbn; rewrite ?Hc; cbn; by rewrite ?lookup_insert_eq, ?or_else_self.
    + rewrite Hpar. cbn. rewrite Hc. cbn. rewrite lookup_insert_eq.
      rewrite or_else_self, E.
      destruct (negb (JS.truthy_opt (api_keys c !! p)) || answer_first);
        cbn; rewrite ?Hc; cbn; by rewrite ?lookup_insert_eq, ?or_else_self.
    + rewrite Hpar. cbn. rewrite Hc. cbn [mbind option_bind]. fold v0.
      rewrite str_eq_refl. cbn [snd]. done.
Qed.

Lemma testClick_verdict_witness :
  let cfg := mkCloudSTTConfig true (Some "gemini") ∅ ∅ in
  let rendered := mkState [] (Some cfg) false in
  let net := λ _ _ : string, JS.Ok true in
  let after :=
    snd (testClick JS.NoFault net "gemini" rendered false
           (ApiKeyInput.mkState "new" false None) (Host.mk [] [] cfg)) in
  ApiKeyInput.isLoading after = false
  ∧ ApiKeyInput.localValue after = "new"
  ∧ ApiKeyInput.testResult after = None.
Proof.
  intros cfg rendered net after.
  destruct (testClick_verdict JS.NoFault net "gemini" rendered cfg false
              (ApiKeyInput.mkState "new" false None) (Host.mk [] [] cfg)
              eq_refl eq_refl) as (Hload & Hval & Hres).
  fold after in Hload, Hval, Hres.
  split; [exact Hload|]. split; [exact Hval|]. rewrite Hres. reflexivity.
Defined.

(** X14: leaving the field first and pressing the test button after the
    component has rendered again saves the entered key once and tests that
    very key.  After the blur the field shows the entered key; the test
    then writes nothing, and its verdict is the network's answer for the
    entered key. *)
Theorem blur_then_test
    (f f' : JS.fault) (net : string → string → JS.outcome bool) (p : string)
    (rendered : state) (c : CloudSTTConfig) (st : ApiKeyInput.state)
    (h : Host.t) :
  config rendered = Some c → f ≠ JS.Throws →
  JS.truthy (JS.trim (ApiKeyInput.localValue st)) = true →
  let w1 :=
    ApiKeyInput.handleBlur (apiKeyInputProps f net p rendered) st
      (h, rendered) in
  let props1 := apiKeyInputProps f' net p (snd (fst w1)) in
  let st1 := ApiKeyInput.valueEffect props1 (snd w1) in
  let w2 := ApiKeyInput.handleTest props1 st1 (fst w1) in
  ApiKeyInput.value props1 = ApiKeyInput.localValue st
  ∧ fst w2 = fst w1
  ∧ ApiKeyInput.testResult (snd w2)
    = Some (match net p (ApiKeyInput.localValue st) with
            | JS.Ok true => true
            | _ => false
            end).
Proof.
  intros Hc Hf Htrim. pose proof (trim_truthy _ Htrim) as Hv.
  set (v := ApiKeyInput.localValue st) in *.
  assert (∃ h1 r1 c1,
            fst (ApiKeyInput.handleBlur (apiKeyInputProps f net p rendered)
                   st (h, rendered)) = (h1, r1)
            ∧ config r1 = Some c1 ∧ api_keys c1 !! p = Some v) as Hblur.
  { unfold ApiKeyInput.handleBlur. fold v.
    destruct (JS.str_eq v (ApiKeyInput.value _)) eqn:E; cbn [negb].
    - apply str_eq_true in E. exists h, rendered, c. split; [done|].
      split; [done|]. cbn in E. rewrite Hc in E. cbn in E.
      destruct (api_keys c !! p) as [k|]; cbn in E.
      + destruct (JS.truthy k) eqn:Hk; [congruence|].
        rewrite E in Hv. discriminate.
      + rewrite E in Hv. discriminate.
    - cbn [ApiKeyInput.onChange apiKeyInputProps fst].
      unfold handleApiKeyChange, Host.call.
      destruct f; [| |done]; cbn;
        eexists _, _, _; (split; [reflexivity|]);
        unfold with_config; cbn; rewrite Hc; cbn;
        (split; [reflexivity|]); cbn; by rewrite lookup_insert_eq. }
  destruct Hblur as (h1 & r1 & c1 & Hw1 & Hc1 & Hk1).
  cbv zeta. rewrite Hw1. cbn [fst snd].
  assert (ApiKeyInput.value (apiKeyInputProps f' net p r1) = v) as Hval.
  { cbn. rewrite Hc1. cbn. rewrite Hk1. apply or_else_self. }
  split; [done|].
  unfold ApiKeyInput.handleTest, ApiKeyInput.valueEffect.
  cbn [ApiKeyInput.localValue]. rewrite Hval, Htrim, str_eq_refl.
  cbn [negb]. cbv iota.
  cbn [ApiKeyInput.onTest apiKeyInputProps].
  unfold handleTestConnection, Host.testCloudSttConnection.
  rewrite Hc1. cbn. rewrite Hk1, Hv.
  by destruct (net p v) as [[]| |].
Qed.

Lemma blur_then_test_witness :
  let cfg := mkCloudSTTConfig true (Some "gemini") {["gemini" := "old"]} ∅ in
  let rendered := mkState [] (Some cfg) false in
  let net := λ _ k : string, JS.Ok (JS.str_eq k "new") in
  let w1 :=
    ApiKeyInput.handleBlur (apiKeyInputProps JS.NoFault net "gemini" rendered)
      (ApiKeyInput.mkState "new" false None) (Host.mk [] [] cfg, rendered) in
  let props1 := apiKeyInputProps JS.NoFault net "gemini" (snd (fst w1)) in
  let st1 := ApiKeyInput.valueEffect props1 (snd w1) in
  let w2 := ApiKeyInput.handleTest props1 st1 (fst w1) in
  api_keys (Host.cloud (fst (fst w2))) !! "gemini" = Some "new"
  ∧ ApiKeyInput.testResult (snd w2) = Some true.
Proof.
  intros cfg rendered net w1 props1 st1 w2.
  destruct (blur_then_test JS.NoFault JS.NoFault net "gemini" rendered cfg
              (ApiKeyInput.mkState "new" false None) (Host.mk [] [] cfg)
              eq_refl ltac:(discriminate) eq_refl) as (_ & Hhost & Hres).
  fold w1 props1 st1 w2 in Hhost, Hres.
  rewrite Hhost, Hres. split; reflexivity.
Defined.

(** X19: what the settings show after a change.  Once a key was set for a
    provider (and the command was not rejected), the key field shows that
    key and the provider counts as configured exactly when the key is not
    blank; once a non-empty model was set, the selector of that provider
    shows it; a provider without a stored model, or with an empty one,
    shows its default model. *)
Theorem settings_display_roundtrip (f : JS.fault) (v : string)
    (prov : CloudSTTProvider) (c : CloudSTTConfig) (h : Host.t)
    (st : state) :
  config st = Some c → f ≠ JS.Throws →
  (∃ c1, config (snd (handleApiKeyChange f (id prov) v h st)) = Some c1
         ∧ JS.or_else (api_keys c1 !! id prov) "" = v
         ∧ isConfigured c1 (id prov) = JS.truthy (JS.trim v))
  ∧ (v ≠ "" →
     ∃ c2, config (snd (handleModelChange f (id prov) v h st)) = Some c2
           ∧ selectedValue c2 prov = v)
  ∧ (selected_models c !! id prov = None
     ∨ selected_models c !! id prov = Some "" →
     selectedValue c prov = default_model prov).
Proof.
  intros Hc Hf. split; [|split].
  - unfold handleApiKeyChange, Host.call.
    destruct f; [| |done]; cbn; rewrite Hc; cbn; eexists;
      (split; [reflexivity|]); unfold isConfigured; cbn;
      rewrite lookup_insert_eq; (split; [apply or_else_self|done]).
  - intros Hv. apply truthy_ne in Hv.
    unfold handleModelChange, Host.call.
    destruct f; [| |done]; cbn; rewrite Hc; cbn; eexists;
      (split; [reflexivity|]); unfold selectedValue, selectedModel; cbn;
      rewrite lookup_insert_eq; cbn; by rewrite Hv; cbn; rewrite Hv.
  - unfold selectedValue, selectedModel.
    intros [-> | ->]; cbn; by destruct (default_model prov).
Qed.

Lemma settings_display_roundtrip_witness :
  let prov :=
    mkProvider "openai" "OpenAI" "" "" "gpt-4o-transcribe"
      [("gpt-4o-transcribe", "GPT-4o"); ("whisper-1", "Whisper")] in
  let cfg := mkCloudSTTConfig true (Some "openai") {["openai" := "sk"]} ∅ in
  let st := mkState [prov] (Some cfg) false in
  selectedValue cfg prov = "gpt-4o-transcribe"
  ∧ ∃ c2, config (snd (handleModelChange JS.NoFault "openai" "whisper-1"
                         (Host.mk [] [] cfg) st)) = Some c2
          ∧ selectedValue c2 prov = "whisper-1".
Proof.
  intros prov cfg st.
  destruct (settings_display_roundtrip JS.NoFault "whisper-1" prov cfg
              (Host.mk [] [] cfg) st eq_refl ltac:(discriminate))
    as (_ & Hmodel & _).
  destruct (settings_display_roundtrip JS.NoFault "whisper-1" prov cfg
              (Host.mk [] [] cfg) st eq_refl ltac:(discriminate))
    as (_ & _ & Hdefault).
  split.
  - rewrite Hdefault; [reflexivity | by left].
  - apply Hmodel. discriminate.
Defined.

End CloudSettings.

(** ** Onboarding: when the cloud setup counts as complete *)

Lemma hasApiKey_spec (c : CloudSTTConfig) :
  Onboarding.hasApiKey c = true
  ↔ ∃ p k, api_keys c !! p = Some k ∧ JS.trim k ≠ "".
Proof.
  unfold Onboarding.hasApiKey. rewrite existsb_exists. split.
  - intros (k & Hin & Hk). apply list_elem_of_In in Hin.
    apply list_elem_of_fmap in Hin as ([p k'] & -> & Hin).
    apply elem_of_map_to_list in Hin. exists p, k'. split; [done|].
    cbn in Hk. apply andb_true_iff in Hk as [_ Hk].
    by apply negb_true_iff, str_eq_false in Hk.
  - intros (p & k & Hk & Htrim). exists k. split.
    + apply list_elem_of_In, list_elem_of_fmap. exists (p, k).
      split; [done|]. by apply elem_of_map_to_list.
    + apply andb_true_iff. split.
      * destruct k; [|done]. by destruct Htrim.
      * by apply negb_true_iff, str_eq_false.
Qed.

(** X15: after the configuration was read, the onboarding's "continue"
    button is enabled exactly when some provider, not necessarily the
    active one, has a key that is not blank and an active provider with a
    non-empty id is set; when the configuration cannot be read the flag
    keeps its value. *)
Theorem cloudConfigured_spec (f : JS.fault) (h : Host.t) (before : bool) :
  (f = JS.NoFault →
   (Onboarding.handleCloudConfigChange f h before = true
    ↔ (∃ p k, api_keys (Host.cloud h) !! p = Some k ∧ JS.trim k ≠ "")
      ∧ ∃ a, active_provider (Host.cloud h) = Some a ∧ a ≠ ""))
  ∧ (f ≠ JS.NoFault →
     Onboarding.handleCloudConfigChange f h before = before).
Proof.
  split.
  - intros ->. cbn. rewrite andb_true_iff, hasApiKey_spec.
    split; intros [Hkey Hact]; (split; [done|]).
    + destruct (active_provider (Host.cloud h)) as [a|]; [|done].
      exists a. split; [done|]. by apply truthy_ne.
    + destruct Hact as (a & -> & Ha). by apply truthy_ne.
  - intros Hf. by destruct f.
Qed.

Lemma cloudConfigured_spec_witness :
  Onboarding.handleCloudConfigChange JS.NoFault
    (Host.mk [] []
       (mkCloudSTTConfig false (Some "openai") {["gemini" := "k1"]} ∅))
    false = true.
Proof.
  destruct (cloudConfigured_spec JS.NoFault
              (Host.mk [] []
                 (mkCloudSTTConfig false (Some "openai")
                    {["gemini" := "k1"]} ∅)) false) as (Hok & _).
  apply (Hok eq_refl). split.
  - exists "gemini", "k1". split; [reflexivity | vm_compute; discriminate].
  - exists "openai". split; [reflexivity | discriminate].
Defined.

(** ** The prompt editor: loading, saving and resetting *)

Lemma isDirty_draftEffect (st : ContextPromptEditor.state) :
  ContextPromptEditor.isDirty (ContextPromptEditor.draftEffect st) = false.
Proof.
  unfold ContextPromptEditor.draftEffect.
  destruct (ContextPromptEditor.selectedPrompt st) as [sp|] eqn:E.
  - unfold ContextPromptEditor.isDirty.
    change (ContextPromptEditor.selectedPrompt
              (ContextPromptEditor.mkState (ContextPromptEditor.prompts st)
                 (ContextPromptEditor.selectedPromptId st)
                 (ContextPromptEditor.isLoading st) (name sp)
                 (description sp) (prompt sp)
                 (ContextPromptEditor.isSaving st)))
      with (ContextPromptEditor.selectedPrompt st).
    rewrite E. cbn. by rewrite !str_eq_refl.
  - unfold ContextPromptEditor.isDirty. by rewrite E.
Qed.

Lemma draftEffect_fields (st : ContextPromptEditor.state) :
  ContextPromptEditor.prompts (ContextPromptEditor.draftEffect st)
  = ContextPromptEditor.prompts st
  ∧ ContextPromptEditor.selectedPromptId (ContextPromptEditor.draftEffect st)
    = ContextPromptEditor.selectedPromptId st
  ∧ ContextPromptEditor.isLoading (ContextPromptEditor.draftEffect st)
    = ContextPromptEditor.isLoading st.
Proof.
  unfold ContextPromptEditor.draftEffect.
  by destruct (ContextPromptEditor.selectedPrompt st).
Qed.

Lemma isDirty_set_isSaving (b : bool) (st : ContextPromptEditor.state) :
  ContextPromptEditor.isDirty (ContextPromptEditor.set_isSaving b st)
  = ContextPromptEditor.isDirty st.
Proof. reflexivity. Qed.

(** X16: a load that succeeds replaces the list by the host's and leaves
    the editor clean, with the draft taken from the selected prompt; a
    selection is kept as it is, and without one the first prompt of the
    list is selected.  A load that fails changes neither list, selection
    nor draft.  In both cases the loading flag is cleared. *)
Theorem loadPrompts_outcome (f : JS.fault) (h : Host.t)
    (st : ContextPromptEditor.state) :
  let st' := ContextPromptEditor.loadPrompts f h st in
  ContextPromptEditor.isLoading st' = false
  ∧ (f = JS.NoFault →
     ContextPromptEditor.prompts st' = Host.prompts h
     ∧ ContextPromptEditor.isDirty st' = false
     ∧ ContextPromptEditor.selectedPromptId st'
       = (if JS.truthy_opt (ContextPromptEditor.selectedPromptId st)
          then ContextPromptEditor.selectedPromptId st
          else match Host.prompts h with
               | first :: _ => Some (id first)
               | [] => ContextPromptEditor.selectedPromptId st
               end))
  ∧ (f ≠ JS.NoFault →
     st' = ContextPromptEditor.mkState
             (ContextPromptEditor.prompts st)
             (ContextPromptEditor.selectedPromptId st) false
             (ContextPromptEditor.draftName st)
             (ContextPromptEditor.draftDescription st)
             (ContextPromptEditor.draftPrompt st)
             (ContextPromptEditor.isSaving st)).
Proof.
  cbv zeta. split; [|split].
  - unfold ContextPromptEditor.loadPrompts.
    destruct f; cbn [Host.query]; [|done|done].
    by destruct (draftEffect_fields
                   (ContextPromptEditor.mkState (Host.prompts h)
                      match JS.truthy_opt
                              (ContextPromptEditor.selectedPromptId st),
                            Host.prompts h with
                      | false, first :: _ => Some (id first)
                      | _, _ => ContextPromptEditor.selectedPromptId st
                      end false (ContextPromptEditor.draftName st)
                      (ContextPromptEditor.draftDescription st)
                      (ContextPromptEditor.draftPrompt st)
                      (ContextPromptEditor.isSaving st)))
      as (_ & _ & ->).
  - intros ->. unfold ContextPromptEditor.loadPrompts. cbn [Host.query].
    split; [|split].
    + by destruct (draftEffect_fields
                     (ContextPromptEditor.mkState (Host.prompts h)
                        match JS.truthy_opt
                                (ContextPromptEditor.selectedPromptId st),
                              Host.prompts h with
                        | false, first :: _ => Some (id first)
                        | _, _ => ContextPromptEditor.selectedPromptId st
                        end false (ContextPromptEditor.draftName st)
                        (ContextPromptEditor.draftDescription st)
                        (ContextPromptEditor.draftPrompt st)
                        (ContextPromptEditor.isSaving st)))
        as (-> & _).
    + apply isDirty_draftEffect.
    + destruct (draftEffect_fields
                  (ContextPromptEditor.mkState (Host.prompts h)
                     match JS.truthy_opt
                             (ContextPromptEditor.selectedPromptId st),
                           Host.prompts h with
                     | false, first :: _ => Some (id first)
                     | _, _ => ContextPromptEditor.selectedPromptId st
                     end false (ContextPromptEditor.draftName st)
                     (ContextPromptEditor.draftDescription st)
                     (ContextPromptEditor.draftPrompt st)
                     (ContextPromptEditor.isSaving st)))
        as (_ & -> & _).
      cbn. destruct (JS.truthy_opt _); [done|]. by destruct (Host.prompts h).
  - intros Hf. by destruct f.
Qed.

Lemma loadPrompts_outcome_witness :
  let chat := mkContextStylePrompt "chat" "Chat" "Casual" "Be casual." true in
  let code := mkContextStylePrompt "code" "Code" "Terse" "Be terse." true in
  let h := Host.mk [] [chat; code] (mkCloudSTTConfig false None ∅ ∅) in
  let st := ContextPromptEditor.mkState [] None true "" "" "" false in
  let st' := ContextPromptEditor.loadPrompts JS.NoFault h st in
  ContextPromptEditor.prompts st' = [chat; code]
  ∧ ContextPromptEditor.isDirty st' = false
  ∧ ContextPromptEditor.selectedPromptId st' = Some "chat".
Proof.
  intros chat code h st st'.
  destruct (loadPrompts_outcome JS.NoFault h st) as (_ & Hok & _).
  exact (Hok eq_refl).
Defined.

Lemma loadPrompts_ok (h : Host.t) (st : ContextPromptEditor.state) :
  ContextPromptEditor.prompts (ContextPromptEditor.loadPrompts JS.NoFault h st)
  = Host.prompts h
  ∧ ContextPromptEditor.isDirty
      (ContextPromptEditor.loadPrompts JS.NoFault h st) = false
  ∧ (JS.truthy_opt (ContextPromptEditor.selectedPromptId st) = true →
     ContextPromptEditor.selectedPromptId
       (ContextPromptEditor.loadPrompts JS.NoFault h st)
     = ContextPromptEditor.selectedPromptId st).
Proof.
  unfold ContextPromptEditor.loadPrompts. cbn [Host.query].
  split; [|split].
  - by destruct (draftEffect_fields
                   (ContextPromptEditor.mkState (Host.prompts h)
                      match JS.truthy_opt
                              (ContextPromptEditor.selectedPromptId st),
                            Host.prompts h with
                      | false, first :: _ => Some (id first)
                      | _, _ => ContextPromptEditor.selectedPromptId st
                      end false (ContextPromptEditor.draftName st)
                      (ContextPromptEditor.draftDescription st)
                      (ContextPromptEditor.draftPrompt st)
                      (ContextPromptEditor.isSaving st)))
      as (-> & _).
  - apply isDirty_draftEffect.
  - intros Hsel. rewrite Hsel.
    by destruct (draftEffect_fields
                   (ContextPromptEditor.mkState (Host.prompts h)
                      (ContextPromptEditor.selectedPromptId st)
                      false (ContextPromptEditor.draftName st)
                      (ContextPromptEditor.draftDescription st)
                      (ContextPromptEditor.draftPrompt st)
                      (ContextPromptEditor.isSaving st)))
      as (_ & -> & _).
Qed.

Lemma loadPrompts_failed (f : JS.fault) (h : Host.t)
    (st : ContextPromptEditor.state) :
  f ≠ JS.NoFault →
  ContextPromptEditor.loadPrompts f h st
  = ContextPromptEditor.mkState
      (ContextPromptEditor.prompts st)
      (ContextPromptEditor.selectedPromptId st) false
      (ContextPromptEditor.draftName st)
      (ContextPromptEditor.draftDescription st)
      (ContextPromptEditor.draftPrompt st)
      (ContextPromptEditor.isSaving st).
Proof. intros Hf. by destruct f. Qed.

(** X17: what a save of a dirty draft leaves behind.  When the update and
    the reload succeed, the editor is clean and shows the host's list, with
    the same prompt selected.  When the update fails, the host is
    untouched and the draft is kept, still dirty.  When the update
    succeeds but the reload fails, the draft and the list stay as they
    were, so the editor still counts as dirty although the host has taken
    the update.  The saving flag is cleared in every case. *)
Theorem handleSave_dirty_outcome (fu fl : JS.fault) (h : Host.t)
    (st : ContextPromptEditor.state) (i : string) :
  ContextPromptEditor.selectedPromptId st = Some i → i ≠ "" →
  ContextPromptEditor.isDirty st = true →
  let result := ContextPromptEditor.handleSave fu fl h st in
  let h' := fst (fst result) in
  let st' := snd (fst result) in
  ContextPromptEditor.isSaving st' = false
  ∧ (fu = JS.NoFault → fl = JS.NoFault →
     ContextPromptEditor.isDirty st' = false
     ∧ ContextPromptEditor.prompts st' = Host.prompts h'
     ∧ ContextPromptEditor.selectedPromptId st' = Some i)
  ∧ (fu = JS.NoFault → fl ≠ JS.NoFault →
     h' = Host.updateContextStylePrompt i
            (JS.or_null (JS.trim (ContextPromptEditor.draftName st)))
            (JS.or_null (JS.trim (ContextPromptEditor.draftDescription st)))
            (JS.or_null (JS.trim (ContextPromptEditor.draftPrompt st))) h
     ∧ ContextPromptEditor.isDirty st' = true
     ∧ ContextPromptEditor.prompts st' = ContextPromptEditor.prompts st
     ∧ ContextPromptEditor.draftName st' = ContextPromptEditor.draftName st)
  ∧ (fu ≠ JS.NoFault →
     h' = h ∧ st' = ContextPromptEditor.set_isSaving false st
     ∧ ContextPromptEditor.isDirty st' = true).
Proof.
  intros Hsel Hne Hd. apply truthy_ne in Hne. cbv zeta.
  unfold ContextPromptEditor.handleSave. rewrite Hsel, Hne, Hd. cbn [andb].
  split; [by destruct fu|]. split; [|split].
  - intros -> ->. cbn [Host.call fst snd].
    destruct (loadPrompts_ok
                (Host.updateContextStylePrompt i
                   (JS.or_null (JS.trim (ContextPromptEditor.draftName st)))
                   (JS.or_null
                      (JS.trim (ContextPromptEditor.draftDescription st)))
                   (JS.or_null (JS.trim (ContextPromptEditor.draftPrompt st)))
                   h) st) as (Hp & Hclean & Hkeep).
    rewrite isDirty_set_isSaving. split; [done|]. split; [done|].
    cbn. rewrite <- Hsel. apply Hkeep. by rewrite Hsel.
  - intros -> Hfl. cbn [Host.call fst snd].
    rewrite (loadPrompts_failed fl _ st Hfl). by repeat split.
  - intros Hfu. destruct fu; [done| |]; cbn; by repeat split.
Qed.

Lemma handleSave_dirty_outcome_witness :
  let chat := mkContextStylePrompt "chat" "Chat" "Casual" "Be casual." true in
  let h := Host.mk [] [chat] (mkCloudSTTConfig false None ∅ ∅) in
  let st :=
    ContextPromptEditor.mkState [chat] (Some "chat") false
      "Chat" "Casual" "Be brief." false in
  let result :=
    ContextPromptEditor.handleSave JS.NoFault JS.NoFault h st in
  ContextPromptEditor.isDirty (snd (fst result)) = false
  ∧ ContextPromptEditor.prompts (snd (fst result))
    = Host.prompts (fst (fst result))
  ∧ ContextPromptEditor.selectedPromptId (snd (fst result)) = Some "chat".
Proof.
  intros chat h st result.
  destruct (handleSave_dirty_outcome JS.NoFault JS.NoFault h st "chat"
              eq_refl ltac:(discriminate) eq_refl) as (_ & Hok & _).
  exact (Hok eq_refl eq_refl).
Defined.

(** X18: [handleReset] does nothing without a selected prompt.  With one,
    it asks the host to reset it whether or not the draft is dirty; when
    the reset and the reload succeed, the editor shows the host's list and
    is clean, any unsaved draft being replaced; when the reset fails, host,
    list and draft stay as they were. *)
Theorem handleReset_outcome (reset : string → Host.t → Host.t)
    (fr fl : JS.fault) (h : Host.t) (st : ContextPromptEditor.state) :
  let result := ContextPromptEditor.handleReset reset fr fl h st in
  (JS.truthy_opt (ContextPromptEditor.selectedPromptId st) = false →
   result = (h, st))
  ∧ (∀ i, ContextPromptEditor.selectedPromptId st = Some i → i ≠ "" →
       ContextPromptEditor.isSaving (snd result) = false
       ∧ (fr = JS.NoFault → fl = JS.NoFault →
          fst result = reset i h
          ∧ ContextPromptEditor.prompts (snd result)
            = Host.prompts (reset i h)
          ∧ ContextPromptEditor.isDirty (snd result) = false)
       ∧ (fr ≠ JS.NoFault →
          result = (h, ContextPromptEditor.set_isSaving false st))).
Proof.
  cbv zeta. unfold ContextPromptEditor.handleReset. split.
  - destruct (ContextPromptEditor.selectedPromptId st) as [i|]; [|done].
    cbn. by intros ->.
  - intros i Hsel Hne. apply truthy_ne in Hne. rewrite Hsel, Hne.
    split; [by destruct fr|]. split.
    + intros -> ->. cbn [Host.call fst snd].
      destruct (loadPrompts_ok (reset i h) st) as (Hp & Hclean & _).
      by rewrite isDirty_set_isSaving.
    + intros Hfr. by destruct fr.
Qed.

Lemma handleReset_outcome_witness :
  let factory :=
    mkContextStylePrompt "chat" "Chat" "Casual" "Be casual." true in
  let edited := mkContextStylePrompt "chat" "Chat" "Casual" "Be rude." true in
  let reset := λ (_ : string) (h : Host.t),
    Host.mk (Host.mappings h) [factory] (Host.cloud h) in
  let h := Host.mk [] [edited] (mkCloudSTTConfig false None ∅ ∅) in
  let st :=
    ContextPromptEditor.mkState [edited] (Some "chat") false
      "Chat" "Casual" "Be rude!" false in
  let result :=
    ContextPromptEditor.handleReset reset JS.NoFault JS.NoFault h st in
  ContextPromptEditor.prompts (snd result) = [factory]
  ∧ ContextPromptEditor.isDirty (snd result) = false.
Proof.
  intros factory edited reset h st result.
  destruct (handleReset_outcome reset JS.NoFault JS.NoFault h st)
    as (_ & Hsel).
  destruct (Hsel "chat" eq_refl ltac:(discriminate)) as (_ & Hok & _).
  destruct (Hok eq_refl eq_refl) as (_ & Hp & Hclean).
  split; [exact Hp | exact Hclean].
Defined.
